(** * mtSwirl: hierarchical union of Hail MatrixTables and the entry passes

    A shallow embedding of [generate_mtdna_call_mt/merging_utils.py]:
    the staged tree reduction [multi_way_union_mts], the generator
    [chunks], [join_two_mts], and the three passes
    [remove_genotype_filters], [determine_hom_refs] and
    [apply_mito_artifact_filter].

    The Python code drives the Hail library.  Hail itself is not part of
    the repository; the Hail primitives the code calls (zip join,
    coalesce, flatten, missingness-aware conditionals, interval lookups)
    are given here by small executable definitions that follow Hail's
    documented behaviour, each next to the line of the source using it. *)

From Stdlib Require Import ZArith QArith Ascii.
From stdpp Require Import gmap strings list fin_maps pretty.

Local Open Scope Z_scope.

(** * Part I: the model *)

(** ** Python helpers *)

Module Py.

(** Exceptions the modelled code can raise. *)
Inductive exn :=
| ValueError (msg : string)
| TypeError (msg : string)
| ZeroDivisionError
| IndexError
| AttributeError
| LookupError (field : string)
| ExpressionException (field : string)
| HailError (msg : string).

(** What running a piece of code gives: a value, an exception, or no
    answer within the number of loop iterations allowed. *)
Inductive outcome (A : Type) :=
| Ret (a : A)
| Raise (e : exn)
| OutOfFuel.
Arguments Ret {A} a.
Arguments Raise {A} e.
Arguments OutOfFuel {A}.

(** [int(math.ceil(a / b))] for [b <> 0]. *)
Definition ceil_div (a b : Z) : Z := - ((- a) / b).

(** Normalisation of one bound of a slice [l[a:b]] on a list of
    length [len]. *)
Definition slice_bound (len i : Z) : Z :=
  if i <? 0 then Z.max 0 (i + len) else Z.min i len.

(** [l[a:b]] *)
Definition slice {A} (l : list A) (a b : Z) : list A :=
  let len := Z.of_nat (length l) in
  let a' := slice_bound len a in
  let b' := slice_bound len b in
  take (Z.to_nat (b' - a')) (drop (Z.to_nat a') l).

(** [range(n)] *)
Definition range (n : Z) : list nat := seq 0 (Z.to_nat n).

(** [os.path.join(a, b)] of [posixpath]. *)
Definition ends_with_slash (a : string) : bool :=
  match String.get (String.length a - 1)%nat a with
  | Some c => Ascii.eqb c "/"%char
  | None => false
  end.

Definition path_join (a b : string) : string :=
  match b with
  | String "/"%char _ => b
  | _ =>
      if decide (a = "") then b
      else if ends_with_slash a then a +:+ b
           else a +:+ "/" +:+ b
  end.

(** [str(n)] for a non-negative integer. *)
Definition str (n : nat) : string := pretty n.

End Py.
Export Py.

#[global] Instance outcome_ret : MRet outcome := @Ret.
#[global] Instance outcome_bind : MBind outcome := λ A B f x,
  match x with
  | Ret a => f a
  | Raise e => Raise e
  | OutOfFuel => OutOfFuel
  end.

(** ** [chunks] *)

(** The generator, with the accumulator [lst] of the loop made a
    parameter; the result is the list of yielded values. *)
Fixpoint chunks_from {A} (items : list A) (binsize : Z) (lst : list A)
  : list (list A) :=
  match items with
  | [] => if decide (0 < length lst)%nat then [lst] else []
  | item :: items' =>
      let lst := lst ++ [item] in
      if Z.of_nat (length lst) =? binsize
      then lst :: chunks_from items' binsize []
      else chunks_from items' binsize lst
  end.

Definition chunks {A} (items : list A) (binsize : Z) : list (list A) :=
  chunks_from items binsize [].

(** All yielded chunks but the last one. *)
Definition but_last {A} (ls : list (list A)) : list (list A) :=
  take (length ls - 1) ls.

(** ** Hail types, values, tables *)

(** Field types.  Struct types are ordered lists of named fields. *)
Inductive htype :=
| tint32 | tint64 | tfloat64 | tstr | tbool
| tlocus (rg : string)
| tarray (t : htype)
| tset (t : htype).

#[global] Instance htype_eq_dec : EqDecision htype.
Proof. solve_decision. Defined.

Abbreviation tstruct := (list (string * htype)).

(** Field values; a field holds [None] when it is missing (NA). *)
Inductive hval :=
| VInt (z : Z)
| VFloat (q : Q)
| VStr (s : string)
| VBool (b : bool)
| VSet (s : gset string).

Abbreviation fields := (list (option hval)).

(** An entry is a struct value together with its type, as a Hail
    expression has its [dtype]; [e_fields = None] is the missing struct
    (a filtered entry). *)
Record entry := Entry { e_dtype : tstruct; e_fields : option fields }.

(** [hl.null(t)] *)
Definition hl_null (t : tstruct) : entry := Entry t None.

(** [hl.coalesce(x, y)] *)
Definition hl_coalesce {A} (x : option A) (y : A) : A := default y x.

(** Row keys: contig, position and, for variants, the alleles. *)
Abbreviation RowKey := (string * Z * list string)%type.

(** A MatrixTable.  Hail keeps the key fields first in the row struct
    and in the column struct, so each is given as its key part followed
    by its value part; [mt.row.dtype] is [mt_row_key ++ mt_row_value].
    Row keys are unique, so the rows are a finite map from the key to
    the entries of the row, one per column.  Values of row fields other
    than the key are not represented: the union discards them. *)
Record MatrixTable := {
  mt_row_key : tstruct;
  mt_row_value : tstruct;
  mt_col_key : tstruct;
  mt_col_value : tstruct;
  mt_entry_type : tstruct;
  mt_cols : list fields;
  mt_rows : gmap RowKey (list entry)
}.

Definition row_dtype (mt : MatrixTable) : tstruct :=
  mt_row_key mt ++ mt_row_value mt.
Definition col_dtype (mt : MatrixTable) : tstruct :=
  mt_col_key mt ++ mt_col_value mt.
Definition entry_dtype (mt : MatrixTable) : tstruct := mt_entry_type mt.

(** A Table with localized entries: the row field [__entries] is the
    array of the row's entries and the global [__cols] the array of
    column structs. *)
Record Table := {
  tb_key : tstruct;
  tb_row_value : tstruct;
  tb_col_type : tstruct;
  tb_entry_type : tstruct;
  tb_cols : list fields;
  tb_rows : gmap RowKey (list entry)
}.

(** [mt.localize_entries("__entries", "__cols")] *)
Definition localize_entries (mt : MatrixTable) : Table :=
  {| tb_key := mt_row_key mt;
     tb_row_value := mt_row_value mt;
     tb_col_type := col_dtype mt;
     tb_entry_type := mt_entry_type mt;
     tb_cols := mt_cols mt;
     tb_rows := mt_rows mt |}.

(** [t._unlocalize_entries("__entries", "__cols", col_key)]; Hail stops
    with an error when a row's entry array and the column array differ
    in length. *)
Definition unlocalize_entries (t : Table) (col_key : list string)
  : outcome MatrixTable :=
  let n := length col_key in
  if decide ((take n (tb_col_type t)).*1 = col_key) then
    if decide (map_Forall (λ _ es, length es = length (tb_cols t)) (tb_rows t))
    then Ret {| mt_row_key := tb_key t;
                mt_row_value := tb_row_value t;
                mt_col_key := take n (tb_col_type t);
                mt_col_value := drop n (tb_col_type t);
                mt_entry_type := tb_entry_type t;
                mt_cols := tb_cols t;
                mt_rows := tb_rows t |}
    else Raise (HailError "length mismatch between entry array and column array")
  else Raise (HailError "column key is not a prefix of the column struct").

(** [mt.unfilter_entries()]: a missing entry becomes a struct whose
    fields are all missing. *)
Definition unfilter (ty : tstruct) (e : entry) : entry :=
  match e_fields e with
  | Some _ => e
  | None => Entry ty (Some ((λ _, None) <$> ty))
  end.

Definition unfilter_entries (mt : MatrixTable) : MatrixTable :=
  {| mt_row_key := mt_row_key mt;
     mt_row_value := mt_row_value mt;
     mt_col_key := mt_col_key mt;
     mt_col_value := mt_col_value mt;
     mt_entry_type := mt_entry_type mt;
     mt_cols := mt_cols mt;
     mt_rows := (λ es : list entry, unfilter (mt_entry_type mt) <$> es)
                  <$> mt_rows mt |}.

(** What the list [staging] holds: a localized Table, or, when
    [check_from_disk] is set, the caller's object as it came (a
    MatrixTable, or [None] as [coverage_merging] passes). *)
Inductive staged :=
| Localized (t : Table)
| Unlocalized (x : option MatrixTable).

(** Attribute access that only a Table supports. *)
Definition as_table (x : staged) : outcome Table :=
  match x with
  | Localized t => Ret t
  | Unlocalized _ => Raise AttributeError
  end.

(** The result of [hl.Table.multi_way_zip_join]: per key, one element
    per input table, missing where that table has no row with the key;
    the global holds one column array per input table. *)
Record Zipped := {
  z_key : tstruct;
  z_row_value : tstruct;
  z_col_type : tstruct;
  z_entry_type : tstruct;
  z_cols : list (list fields);
  z_rows : gmap RowKey (list (option (list entry)))
}.

(** [any(f(head) != f(t) for t in tables)] followed by [raise TypeError]. *)
Fixpoint require_same {B} `{EqDecision B} (f : Table → B) (b : B)
    (msg : string) (tables : list staged) : outcome () :=
  match tables with
  | [] => Ret ()
  | x :: tables' =>
      t ← as_table x;
      if decide (f t = b) then require_same f b msg tables'
      else Raise (TypeError msg)
  end.

Definition key_union (ts : list Table) : gset RowKey :=
  ⋃ ((λ t, dom (tb_rows t)) <$> ts).

Definition zip_join_rows (ts : list Table)
  : gmap RowKey (list (option (list entry))) :=
  map_imap (λ k _, Some ((λ t, tb_rows t !! k) <$> ts))
           (gset_to_gmap () (key_union ts)).

(** [hl.Table.multi_way_zip_join(tables, "__entries", "__cols")] *)
Definition multi_way_zip_join (tables : list staged) : outcome Zipped :=
  match tables with
  | [] => Raise (ValueError "multi_way_zip_join must have at least one table as an argument")
  | x :: _ =>
      head ← as_table x;
      require_same tb_key (tb_key head)
        "All input tables to multi_way_zip_join must have the same key" tables;;
      require_same (λ t, (tb_key t, tb_row_value t, tb_entry_type t))
        (tb_key head, tb_row_value head, tb_entry_type head)
        "All input tables to multi_way_zip_join must have the same row type" tables;;
      require_same tb_col_type (tb_col_type head)
        "All input tables to multi_way_zip_join must have the same global type" tables;;
      ts ← mapM as_table tables;
      Ret {| z_key := tb_key head;
             z_row_value := tb_row_value head;
             z_col_type := tb_col_type head;
             z_entry_type := tb_entry_type head;
             z_cols := tb_cols <$> ts;
             z_rows := zip_join_rows ts |}
  end.

(** Lines 68-87: the two annotations that flatten [__entries] and
    [__cols].  For the table at index [i], [hl.coalesce] keeps its
    entries where it has the row and puts [len(__cols[i].__cols)] nulls
    of the entry type otherwise. *)
Definition flatten_zipped (merged : Zipped) : Table :=
  let element_type := z_entry_type merged in
  let __entries (row : list (option (list entry))) :=
    concat (zip_with
              (λ entries_i cols_i,
                 hl_coalesce entries_i
                   ((λ _, hl_null element_type) <$> seq 0 (length cols_i)))
              row (z_cols merged)) in
  let __cols := concat (z_cols merged) in
  {| tb_key := z_key merged;
     tb_row_value := [];
     tb_col_type := z_col_type merged;
     tb_entry_type := element_type;
     tb_cols := __cols;
     tb_rows := __entries <$> z_rows merged |}.

(** ** The temporary directory *)

(** The part of the file system the scheduler sees: [disk] maps a path
    to the localized Table stored there with its [_SUCCESS] marker, and
    [written] lists the paths checkpointed so far, oldest first. *)
Record fs := { disk : gmap string Table; written : list string }.

(** Code that reads and writes the temporary directory. *)
Definition M (A : Type) : Type := fs → outcome A * fs.

#[global] Instance M_ret : MRet M := λ A a σ, (Ret a, σ).
#[global] Instance M_bind : MBind M := λ A B f m σ,
  match m σ with
  | (Ret a, σ') => f a σ'
  | (Raise e, σ') => (Raise e, σ')
  | (OutOfFuel, σ') => (OutOfFuel, σ')
  end.

Definition lift {A} (x : outcome A) : M A := λ σ, (x, σ).
Definition raise {A} (e : exn) : M A := lift (Raise e).

(** [hl.hadoop_is_file(f'{path}/_SUCCESS')] *)
Definition hadoop_is_file_SUCCESS (path : string) : M bool :=
  λ σ, (Ret (bool_decide (is_Some (disk σ !! path))), σ).

(** [hl.read_table(path)] *)
Definition read_table (path : string) : M staged :=
  λ σ, match disk σ !! path with
       | Some t => (Ret (Localized t), σ)
       | None => (Raise (HailError "read_table: no such table"), σ)
       end.

(** [t.checkpoint(path, overwrite=True)] on a flattened Table. *)
Definition checkpoint (path : string) (t : Table) : M staged :=
  λ σ, (Ret (Localized t),
        {| disk := <[path := t]> (disk σ); written := written σ ++ [path] |}).

(** [merged.checkpoint(path, overwrite=True)] on the zip-joined Table
    of line 66: what was at [path] is replaced by a Table that is not a
    localized one. *)
Definition checkpoint_zipped (path : string) (merged : Zipped) : M Zipped :=
  λ σ, (Ret merged,
        {| disk := delete path (disk σ); written := written σ ++ [path] |}).

(** ** [multi_way_union_mts] *)

Definition ResumeInvariantViolation : exn :=
  ValueError "ERROR: --check-from-disk was enabled but not all stage 0 MTs were found. This is unsupported.".

Section multi_way_union_mts.
Variables (temp_dir : string) (chunk_size : Z) (min_partitions : Z)
          (check_from_disk : bool) (prefix : string).

(** Line 38 and 51: the path the resume check looks at and reads. *)
Definition resume_path (stage idx : nat) : string :=
  path_join temp_dir ("stage_" +:+ str stage +:+ "_job_" +:+ str idx +:+ ".ht").

(** Line 91: the path a job's result is checkpointed to. *)
Definition job_path (stage i : nat) : string :=
  path_join temp_dir
    (prefix +:+ "stage_" +:+ str stage +:+ "_job_" +:+ str i +:+ ".ht").

(** Line 66 *)
Definition job_pre_path (stage i : nat) : string :=
  path_join temp_dir
    (prefix +:+ "stage_" +:+ str stage +:+ "_job_" +:+ str i +:+ "_pre.ht").

(** Line 30 *)
Definition n_jobs_of (staging : list staged) : outcome Z :=
  if decide (chunk_size = 0) then Raise ZeroDivisionError
  else Ret (ceil_div (Z.of_nat (length staging)) chunk_size).

(** Lines 36-45: the loop over the jobs of the stage; gives
    [all_exists]. *)
Fixpoint all_exists (stage : nat) (idxs : list nat) : M bool :=
  match idxs with
  | [] => mret true
  | idx :: idxs' =>
      exists_ ← hadoop_is_file_SUCCESS (resume_path stage idx);
      if exists_ : bool then all_exists stage idxs'
      else if decide (stage = 0%nat) then raise ResumeInvariantViolation
           else mret false
  end.

(** Lines 57-93: one job. *)
Definition merge_job (stage : nat) (staging : list staged) (i : nat) : M staged :=
  let to_merge :=
    slice staging (chunk_size * Z.of_nat i) (chunk_size * (Z.of_nat i + 1)) in
  merged ← lift (multi_way_zip_join to_merge);
  merged ← (if 10 <? min_partitions
            then checkpoint_zipped (job_pre_path stage i) merged
            else mret merged);
  checkpoint (job_path stage i) (flatten_zipped merged).

(** Lines 56-93: all jobs of a stage, giving [next_stage]. *)
Definition run_jobs (stage : nat) (staging : list staged) (n_jobs : Z)
  : M (list staged) :=
  mapM (merge_job stage staging) (range n_jobs).

(** Lines 29-97: the body of the [while] loop; gives the new value of
    [staging]. *)
Definition stage_body (stage : nat) (staging : list staged) : M (list staged) :=
  n_jobs ← lift (n_jobs_of staging);
  if check_from_disk then
    ok ← all_exists stage (range n_jobs);
    if ok : bool
    then mapM (λ idx, read_table (resume_path stage idx)) (range n_jobs)
    else run_jobs stage staging n_jobs
  else run_jobs stage staging n_jobs.

(** Lines 27-97: the [while] loop, run for at most [fuel] iterations. *)
Fixpoint stages (fuel : nat) (stage : nat) (staging : list staged)
  : M (list staged) :=
  if decide (1 < length staging)%nat then
    match fuel with
    | O => lift OutOfFuel
    | S fuel' =>
        staging' ← stage_body stage staging;
        stages fuel' (S stage) staging'
    end
  else mret staging.

(** Lines 22-25 *)
Definition initial_staging (mts : list (option MatrixTable))
  : outcome (list staged) :=
  if check_from_disk then Ret (Unlocalized <$> mts)
  else mapM (λ x : option MatrixTable,
               match x with
               | Some mt => Ret (Localized (localize_entries mt))
               | None => Raise AttributeError
               end) mts.

(** Lines 100-104 *)
Definition finish (mts : list (option MatrixTable)) (staging : list staged)
  : outcome MatrixTable :=
  match staging with
  | [] => Raise IndexError
  | x :: _ =>
      t ← as_table x;
      col_key ← match mts with
                | [] => Raise IndexError
                | None :: _ => Raise AttributeError
                | Some mt0 :: _ => Ret (mt_col_key mt0).*1
                end;
      mt ← unlocalize_entries t col_key;
      Ret (unfilter_entries mt)
  end.

End multi_way_union_mts.

(** Lines 12-104.  [fuel] bounds the number of stages. *)
Definition multi_way_union_mts (fuel : nat) (mts : list (option MatrixTable))
    (temp_dir : string) (chunk_size : Z) (min_partitions : Z)
    (check_from_disk : bool) (prefix : string) : M MatrixTable :=
  staging ← lift (initial_staging check_from_disk mts);
  staging ← stages temp_dir chunk_size min_partitions check_from_disk prefix
              fuel 0 staging;
  lift (finish mts staging).

(** ** [join_two_mts] *)

Fixpoint index_of (name : string) (ty : tstruct) : option nat :=
  match ty with
  | [] => None
  | (n, _) :: ty' => if decide (n = name) then Some 0%nat else S <$> index_of name ty'
  end.

(** The fields a [select_rows] or [select_cols] call names: each must be
    a value field, and none may be named twice; the key is always kept
    and cannot be named.  The result lists the positions of the named
    fields in [value]. *)
Definition select_one (key value : tstruct) (name : string) : outcome nat :=
  match index_of name value with
  | Some i => Ret i
  | None => if decide (name ∈ key.*1) then Raise (ExpressionException name)
            else Raise (LookupError name)
  end.

Definition select_exprs (key value : tstruct) (names : list string)
  : outcome (list nat) :=
  idxs ← mapM (select_one key value) names;
  if decide (NoDup names) then Ret idxs
  else Raise (ExpressionException "duplicate field").

Definition pick {A} (l : list A) (idxs : list nat) : list A :=
  omap (λ i, l !! i) idxs.

(** [mt.select_rows( *row_keep)] *)
Definition select_rows (mt : MatrixTable) (row_keep : list string)
  : outcome MatrixTable :=
  idxs ← select_exprs (mt_row_key mt) (mt_row_value mt) row_keep;
  Ret {| mt_row_key := mt_row_key mt;
         mt_row_value := pick (mt_row_value mt) idxs;
         mt_col_key := mt_col_key mt;
         mt_col_value := mt_col_value mt;
         mt_entry_type := mt_entry_type mt;
         mt_cols := mt_cols mt;
         mt_rows := mt_rows mt |}.

(** [mt.select_cols( *col_keep)] *)
Definition select_cols (mt : MatrixTable) (col_keep : list string)
  : outcome MatrixTable :=
  idxs ← select_exprs (mt_col_key mt) (mt_col_value mt) col_keep;
  let nk := length (mt_col_key mt) in
  Ret {| mt_row_key := mt_row_key mt;
         mt_row_value := mt_row_value mt;
         mt_col_key := mt_col_key mt;
         mt_col_value := pick (mt_col_value mt) idxs;
         mt_entry_type := mt_entry_type mt;
         mt_cols := (λ c : fields, take nk c ++ pick (drop nk c) idxs) <$> mt_cols mt;
         mt_rows := mt_rows mt |}.

Definition SchemaMismatch : exn :=
  ValueError "ERROR: when joining MatrixTables, schemas must be the same.".

(** Lines 221-230 *)
Definition join_two_mts (fuel : nat) (mt1 mt2 : MatrixTable)
    (row_keep col_keep : list string) (temp_dir : string) (partitions : Z)
  : M MatrixTable :=
  mt1 ← lift (mt1 ← select_rows mt1 row_keep; select_cols mt1 col_keep);
  mt2 ← lift (mt2 ← select_rows mt2 row_keep; select_cols mt2 col_keep);
  if bool_decide (row_dtype mt1 ≠ row_dtype mt2)
     || bool_decide (col_dtype mt1 ≠ col_dtype mt2)
     || bool_decide (entry_dtype mt1 ≠ entry_dtype mt2)
  then raise SchemaMismatch
  else multi_way_union_mts fuel [Some mt1; Some mt2] temp_dir 2 partitions
         false "appending_".

(** ** The variant MatrixTable and the passes over it *)

(** Hail expressions are missingness-aware: a boolean is true, false or
    missing. *)
Definition hl_is_missing {A} (x : option A) : option bool :=
  Some (match x with Some _ => false | None => true end).
Definition hl_is_defined {A} (x : option A) : option bool :=
  Some (match x with Some _ => true | None => false end).
Definition hl_and (a b : option bool) : option bool :=
  match a, b with
  | Some false, _ | _, Some false => Some false
  | Some true, Some true => Some true
  | _, _ => None
  end.
Definition hl_or (a b : option bool) : option bool :=
  match a, b with
  | Some true, _ | _, Some true => Some true
  | Some false, Some false => Some false
  | _, _ => None
  end.
Definition hl_gt (a b : option Z) : option bool :=
  x ← a; y ← b; Some (y <? x).
Definition hl_le (a b : option Z) : option bool :=
  x ← a; y ← b; Some (x <=? y).
Definition hl_eq (a b : option Z) : option bool :=
  x ← a; y ← b; Some (x =? y).
Definition hl_len_set (s : option (gset string)) : option Z :=
  (λ s : gset string, Z.of_nat (size s)) <$> s.
Definition hl_len {A} (l : list A) : option Z := Some (Z.of_nat (length l)).
(** [hl.if_else(c, a, b)]: missing when the condition is missing. *)
Definition hl_if_else {A} (c : option bool) (a b : option A) : option A :=
  match c with
  | Some true => a
  | Some false => b
  | None => None
  end.

(** The entry struct of the variant MatrixTable (line 401); float
    values are only stored and moved, and are given as rationals.
    [v2] stands for the extra fields of line 399, which no pass reads. *)
Record vcf_entry := {
  DP : option Z;
  HL : option Q;
  MQ : option Q;
  TLOD : option Q;
  FT : option (gset string);
  v2 : fields
}.

(** A row: the key [locus], [alleles] (the position on contig MT, the
    reference allele [alleles[0]] and the alternate alleles), the row
    field [filters], and the row's entries, one per column; a missing
    entry struct is [None]. *)
Record variant_row := {
  locus : Z;
  ref_allele : string;
  alt_alleles : list string;
  filters : option (gset string);
  row_entries : list (option vcf_entry)
}.

Record sample := { s : string; batch : option string }.

Record VariantMT := { vm_cols : list sample; vm_rows : list variant_row }.

(** [mt.annotate_entries(...)]: the new fields are computed for each
    entry from the entry, its row and its column; a missing entry struct
    stays missing. *)
Definition annotate_entries
    (f : variant_row → sample → vcf_entry → vcf_entry) (mt : VariantMT)
  : VariantMT :=
  {| vm_cols := vm_cols mt;
     vm_rows :=
       (λ r, {| locus := locus r; ref_allele := ref_allele r;
                alt_alleles := alt_alleles r; filters := filters r;
                row_entries :=
                  zip_with (λ c e, f r c <$> e) (vm_cols mt) (row_entries r) |})
       <$> vm_rows mt |}.

(** [mt.annotate_rows(filters = ...)] *)
Definition annotate_rows_filters
    (f : variant_row → option (gset string)) (mt : VariantMT) : VariantMT :=
  {| vm_cols := vm_cols mt;
     vm_rows :=
       (λ r, {| locus := locus r; ref_allele := ref_allele r;
                alt_alleles := alt_alleles r; filters := f r;
                row_entries := row_entries r |})
       <$> vm_rows mt |}.

(** *** [remove_genotype_filters] *)

Definition default_filters_to_remove : gset string :=
  {[ "possible_numt"; "mt_many_low_hets"; "FAIL"; "blacklisted_site" ]}.

Definition PASS : gset string := {[ "PASS" ]}.

Definition with_FT (e : vcf_entry) (ft : option (gset string)) : vcf_entry :=
  {| DP := DP e; HL := HL e; MQ := MQ e; TLOD := TLOD e; FT := ft; v2 := v2 e |}.

(** Lines 506-509 *)
Definition remove_genotype_filters (mt : VariantMT)
    (filters_to_remove : gset string) : VariantMT :=
  let mt :=
    annotate_entries
      (λ _ _ e, with_FT e ((λ ft : gset string, ft ∖ filters_to_remove) <$> FT e))
      mt in
  annotate_entries
    (λ _ _ e, with_FT e
       (hl_if_else (hl_eq (hl_len_set (FT e)) (Some 0)) (Some PASS) (FT e)))
    mt.

(** *** [determine_hom_refs] *)

(** The coverage MatrixTable, keyed by position and sample:
    [coverages[mt.locus, mt.s].coverage] is missing where the table has
    no such row, column or value. *)
Abbreviation CoverageMT := (gmap (Z * string) Z).

(** Lines 532-546 *)
Definition determine_hom_refs (mt : VariantMT) (coverages : CoverageMT)
    (minimum_homref_coverage : Z) : VariantMT :=
  let mt :=
    annotate_entries
      (λ r c e,
         {| DP := hl_if_else (hl_is_missing (HL e))
                    (coverages !! (locus r, s c)) (DP e);
            HL := HL e; MQ := MQ e; TLOD := TLOD e; FT := FT e; v2 := v2 e |})
      mt in
  let hom_ref_expr (e : vcf_entry) :=
    hl_and (hl_is_missing (HL e))
           (hl_gt (DP e) (Some minimum_homref_coverage)) in
  annotate_entries
    (λ _ _ e,
       {| HL := hl_if_else (hom_ref_expr e) (Some 0%Q) (HL e);
          FT := hl_if_else (hom_ref_expr e) (Some PASS) (FT e);
          DP := hl_if_else
                  (hl_and (hl_is_missing (HL e))
                          (hl_le (DP e) (Some minimum_homref_coverage)))
                  None (DP e);
          MQ := MQ e; TLOD := TLOD e; v2 := v2 e |})
    mt.

(** Lines 293-297 of [vcf_merging_and_processing]: the two entry passes
    applied to the merged MatrixTable. *)
Definition entry_passes (combined_mt : VariantMT) (coverages : CoverageMT)
    (minimum_homref_coverage : Z) : VariantMT :=
  let combined_mt := remove_genotype_filters combined_mt default_filters_to_remove in
  determine_hom_refs combined_mt coverages minimum_homref_coverage.

(** *** [apply_mito_artifact_filter] *)

(** A closed interval of positions on contig MT. *)
Record Interval := { i_start : Z; i_end : Z }.

Definition interval_contains (iv : Interval) (p : Z) : bool :=
  (i_start iv <=? p) && (p <=? i_end iv).

(** A row of the table read from the BED file, keyed by [interval]. *)
Record bed_row := { interval : Interval; target : option string }.

(** Lines 574-584 *)
Definition region (r : variant_row) : Interval :=
  {| i_start := locus r;
     i_end := locus r + Z.of_nat (String.length (ref_allele r)) - 1 |}.

(** [bed.index(point, all_matches=True)]: the rows whose interval holds
    the point. *)
Definition bed_index (bed : list bed_row) (point : Z) : list bed_row :=
  filter (λ b, interval_contains (interval b) point = true) bed.

Abbreviation variant := (Z * list string)%type.

Definition variant_of (r : variant_row) : variant :=
  (locus r, ref_allele r :: alt_alleles r).

(** [mt_temp.index_rows(point, all_matches=True).variant], with
    [mt_temp] keyed by [region]. *)
Definition index_rows_by_region (rows : list variant_row) (point : Z)
  : list variant :=
  variant_of <$> filter (λ r, interval_contains (region r) point = true) rows.

(** Lines 571-625, from the table [bed] on. *)
Definition apply_mito_artifact_filter (mt : VariantMT) (bed : list bed_row)
  : VariantMT :=
  let bed := (λ b, {| interval := interval b; target := Some "artifact" |}) <$> bed in
  let start_overlaps r := bed_index bed (i_start (region r)) in
  let end_overlaps r := bed_index bed (i_end (region r)) in
  (* bed_temp: one row per bed row and variant whose region holds the
     start of the bed interval, keyed by the variant *)
  let bed_temp : list (variant * option string) :=
    b ← bed;
    (λ v, (v, target b)) <$> index_rows_by_region (vm_rows mt) (i_start (interval b)) in
  let start_and_end_span r : option string :=
    '(_, t) ← head (filter (λ x, x.1 = variant_of r) bed_temp); t in
  annotate_rows_filters
    (λ r,
       hl_if_else
         (hl_or (hl_or (hl_gt (hl_len (start_overlaps r)) (Some 0))
                       (hl_gt (hl_len (end_overlaps r)) (Some 0)))
                (hl_is_defined (start_and_end_span r)))
         (Some ({[ "artifact_prone_site" ]} : gset string))
         (Some PASS))
    mt.

(** ** Splitting the inputs into subsets *)

(** Lines 330-333 of [vcf_merging]: the list of subsets, from the sorted
    list of (sample, path) pairs.  [//] is floor division. *)
Definition vcf_path_list {A} (list_paths : list A) (num_merges : Z)
  : outcome (list (list A)) :=
  if num_merges =? 1 then Ret [list_paths]
  else if decide (num_merges = 0) then Raise ZeroDivisionError
       else Ret (chunks list_paths (Z.of_nat (length list_paths) / num_merges)).

(** ** The checkpoint paths of the subsets *)

(** Lines 138 and 337: [this_prefix], where [what] is ["coverage"] in
    [coverage_merging] and ["variant"] in [vcf_merging]. *)
Definition this_prefix (what : string) (subset_number : nat) (num_merges : Z)
  : string :=
  what +:+ "_merging_subset" +:+ str subset_number +:+ "_"
       +:+ pretty num_merges +:+ "subsets/".

(** Lines 129 and 429: [merged_prefix]. *)
Definition merged_prefix (what : string) (num_merges : Z) : string :=
  what +:+ "_merging_final_" +:+ pretty num_merges +:+ "subsets/".

(** Lines 130, 139 and 338: [this_merged_mt] and [this_subset_mt]. *)
Definition final_merged_mt (temp_dir prefix : string) : string :=
  path_join temp_dir (prefix +:+ "final_merged.mt").

(** ** [collect_vcf_paths] *)

(** A row of the participant table: the columns [entity:participant_id],
    [s] and [batch], and the column named by [vcf_col_name]. *)
Record participant := {
  entity_participant_id : string;
  p_s : string;
  p_batch : string;
  p_vcf : string
}.

(** Lines 435-482.  [participant_ht] holds the rows in the order
    [df.iterrows()] gives them; [participants_to_subset] is the
    [participant] column of the file of that name, when one is given.
    The table filtered on line 460 is not assigned, so the rows go on
    as they were. *)
Definition collect_vcf_paths (participant_ht : list participant)
    (participants_to_subset : option (list string)) (single_sample : bool)
  : gmap string string :=
  let _ := filter (λ row, p_vcf row ≠ "") participant_ht in
  let participant_ht :=
    match participants_to_subset with
    | Some participants_of_interest =>
        filter (λ row, entity_participant_id row ∈ participants_of_interest)
               participant_ht
    | None => participant_ht
    end in
  foldl (λ (vcf_paths : gmap string string) row,
           if single_sample then <[p_s row := p_vcf row]> vcf_paths
           else <[p_batch row := p_vcf row]> vcf_paths)
        ∅ participant_ht.

(** ** Vocabulary of the properties *)

(** The cleaned filter set: what is left after the removal, or [PASS]
    when nothing is left. *)
Definition clean_FT (R ft : gset string) : gset string :=
  if decide (ft ∖ R = ∅) then PASS else ft ∖ R.

(** The reading of the claim on which it fails: after the pass every
    entry has a filter set, and that set is not empty. *)
Definition every_FT_nonempty (mt : VariantMT) : Prop :=
  Forall (λ r, Forall (λ oe, ∀ e, oe = Some e →
                         ∃ ft : gset string, FT e = Some ft ∧ ft ≠ ∅)
                      (row_entries r))
         (vm_rows mt).

(** What the two annotations of [determine_hom_refs] do to one entry,
    given the looked-up coverage [depth]. *)
Definition hom_ref_entry (m : Z) (depth : option Z) (e : vcf_entry) : vcf_entry :=
  let DP1 := hl_if_else (hl_is_missing (HL e)) depth (DP e) in
  let hom_ref_expr := hl_and (hl_is_missing (HL e)) (hl_gt DP1 (Some m)) in
  {| HL := hl_if_else hom_ref_expr (Some 0%Q) (HL e);
     FT := hl_if_else hom_ref_expr (Some PASS) (FT e);
     DP := hl_if_else (hl_and (hl_is_missing (HL e)) (hl_le DP1 (Some m)))
             None DP1;
     MQ := MQ e; TLOD := TLOD e; v2 := v2 e |}.

(** The three ways a row can meet a reference interval: its start lies
    in the interval, its end lies in the interval, or the interval lies
    within the row's span. *)
Definition span_end (r : variant_row) : Z :=
  locus r + Z.of_nat (String.length (ref_allele r)) - 1.

Definition meets (r : variant_row) (iv : Interval) : Prop :=
  i_start iv <= locus r <= i_end iv
  ∨ i_start iv <= span_end r <= i_end iv
  ∨ (locus r <= i_start iv ∧ i_end iv <= span_end r).

Definition flagged (bed : list bed_row) (r : variant_row) : Prop :=
  ∃ b, b ∈ bed ∧ meets r (interval b).

(** The closed form of one n-way union: per key of any table, the
    concatenation over the tables, in order, of the table's entries for
    the key, or of one null of the entry type per column of the table. *)
Definition row_or_fill (E : tstruct) (k : RowKey) (t : Table) : list entry :=
  default (replicate (length (tb_cols t)) (hl_null E)) (tb_rows t !! k).

Definition flat_row (E : tstruct) (ts : list Table) (k : RowKey) : list entry :=
  concat (row_or_fill E k <$> ts).

Definition union_rows (E : tstruct) (ts : list Table) : gmap RowKey (list entry) :=
  map_imap (λ k _, Some (flat_row E ts k)) (gset_to_gmap () (key_union ts)).

(** Key type, column type and entry type of a Table. *)
Abbreviation signature := (tstruct * tstruct * tstruct)%type.

Definition sig_of (t : Table) : signature :=
  (tb_key t, tb_col_type t, tb_entry_type t).

Definition union_table (g : signature) (ts : list Table) : Table :=
  {| tb_key := g.1.1;
     tb_row_value := [];
     tb_col_type := g.1.2;
     tb_entry_type := g.2;
     tb_cols := concat (tb_cols <$> ts);
     tb_rows := union_rows g.2 ts |}.

(** Every row has one entry per column. *)
Definition aligned (t : Table) : Prop :=
  map_Forall (λ _ es, length es = length (tb_cols t)) (tb_rows t).

(** The chunk of job [i]: [c] tables from position [c * i] on. *)
Definition chunk_of {A} (c : nat) (l : list A) (i : nat) : list A :=
  take c (drop (c * i) l).

(** The schemas of a MatrixTable that the union looks at. *)
Definition mt_schema (mt : MatrixTable)
  : tstruct * tstruct * tstruct * tstruct * tstruct :=
  (mt_row_key mt, mt_row_value mt, mt_col_key mt, mt_col_value mt,
   mt_entry_type mt).

Definition compatible (mts : list MatrixTable) : Prop :=
  ∀ m1 m2, m1 ∈ mts → m2 ∈ mts → mt_schema m1 = mt_schema m2.

(** Every row has one entry per column. *)
Definition mt_aligned (mt : MatrixTable) : Prop :=
  map_Forall (λ _ es, length es = length (mt_cols mt)) (mt_rows mt).

(** The union as the spec words it, in one step: the columns of the
    inputs in input order; one row per key that some input has, holding
    for each input in turn its entries for the key, or one null of the
    entry type per column of the input; missing entries are then
    unfiltered. *)
Definition reference_rows (E : tstruct) (mts : list MatrixTable)
  : gmap RowKey (list entry) :=
  (λ es : list entry, unfilter E <$> es)
    <$> union_rows E (localize_entries <$> mts).

Definition reference_union (h : MatrixTable) (mts : list MatrixTable)
  : MatrixTable :=
  {| mt_row_key := mt_row_key h;
     mt_row_value := if decide (length mts = 1%nat) then mt_row_value h else [];
     mt_col_key := mt_col_key h;
     mt_col_value := mt_col_value h;
     mt_entry_type := mt_entry_type h;
     mt_cols := concat (mt_cols <$> mts);
     mt_rows := reference_rows (mt_entry_type h) mts |}.

(** Some job among [idxs] of the stage has no success marker at the
    path the resume check looks at. *)
Definition missing_marker (temp_dir : string) (σ : fs) (stage : nat)
    (idxs : list nat) : Prop :=
  ∃ j, j ∈ idxs ∧ disk σ !! resume_path temp_dir stage j = None.

(** What a job returns, which does not depend on the directory. *)
Definition job_value (chunk_size : Z) (staging : list staged) (i : nat)
  : outcome staged :=
  merged ← multi_way_zip_join
              (slice staging (chunk_size * Z.of_nat i)
                 (chunk_size * (Z.of_nat i + 1)));
  Ret (Localized (flatten_zipped merged)).

(** The two selections of lines 223-224. *)
Definition selected (mt : MatrixTable) (row_keep col_keep : list string)
  : outcome MatrixTable :=
  mt ← select_rows mt row_keep; select_cols mt col_keep.

(** ** Example data *)

(** An entry that no input had for its row and column, as the union
    leaves it: all fields missing. *)
Definition all_missing : vcf_entry :=
  {| DP := None; HL := None; MQ := None; TLOD := None; FT := None; v2 := [] |}.

Definition one_missing_entry : VariantMT :=
  {| vm_cols := [ {| s := "sample1"; batch := None |} ];
     vm_rows := [ {| locus := 100; ref_allele := "A"; alt_alleles := ["G"];
                     filters := None; row_entries := [Some all_missing] |} ] |}.

Definition three_entries : VariantMT :=
  {| vm_cols := [ {| s := "a"; batch := None |}; {| s := "b"; batch := None |};
                  {| s := "c"; batch := None |} ];
     vm_rows :=
       [ {| locus := 7; ref_allele := "A"; alt_alleles := ["G"]; filters := None;
            row_entries :=
              [ Some all_missing;
                Some {| DP := Some 5; HL := None; MQ := None; TLOD := None;
                        FT := Some {[ "FAIL" ]}; v2 := [] |};
                None ] |} ] |}.

Definition low_and_high_coverage : CoverageMT :=
  {[ (7, "a") := 200; (7, "b") := 50 ]}.

(** The reference interval [[100,100]]; a deletion spanning [[95,105]]
    and one spanning [[50,60]]. *)
Definition bed_100 : list bed_row :=
  [ {| interval := {| i_start := 100; i_end := 100 |}; target := None |} ].

Definition two_deletions : VariantMT :=
  {| vm_cols := [];
     vm_rows :=
       [ {| locus := 95; ref_allele := "ACGTACGTACG"; alt_alleles := ["A"];
            filters := None; row_entries := [] |};
         {| locus := 50; ref_allele := "ACGTACGTACG"; alt_alleles := ["A"];
            filters := None; row_entries := [] |} ] |}.

Definition coverage_entry : tstruct := [("coverage", tint32)].

(** A partition with the single column [sample] and the single row
    [(MT, 100)] holding [value]. *)
Definition single_column (sample : string) (value : Z) : MatrixTable :=
  {| mt_row_key := [("chrom", tstr); ("pos", tint32)];
     mt_row_value := [];
     mt_col_key := [("s", tstr)];
     mt_col_value := [];
     mt_entry_type := coverage_entry;
     mt_cols := [[Some (VStr sample)]];
     mt_rows := {[ ("MT", 100, []) := [Entry coverage_entry (Some [Some (VInt value)])] ]} |}.

Definition part_A := single_column "A" 5.
Definition part_B := single_column "B" 7.
Definition part_C := single_column "C" 9.

Definition empty_dir : fs := {| disk := ∅; written := [] |}.

(** Partition [A] has the row [(MT, 100)], partition [B] has two columns
    and lacks the row. *)
Definition table_A : Table := localize_entries part_A.

Definition table_B : Table :=
  {| tb_key := [("chrom", tstr); ("pos", tint32)];
     tb_row_value := [];
     tb_col_type := [("s", tstr)];
     tb_entry_type := coverage_entry;
     tb_cols := [[Some (VStr "B1")]; [Some (VStr "B2")]];
     tb_rows := {[ ("MT", 200, []) := [Entry coverage_entry (Some [Some (VInt 1)]);
                                       Entry coverage_entry (Some [Some (VInt 2)])] ]} |}.

Definition table_C : Table := localize_entries part_C.

(** A directory in which job 0 of stage 1 has its marker and job 1 has
    not. *)
Definition partial_stage_1 : fs :=
  {| disk := {[ "tmp/stage_1_job_0.ht" := table_A ]}; written := [] |}.

(** The directory a fresh run with prefix ["p_"] leaves behind. *)
Definition after_prefixed_run : fs :=
  (multi_way_union_mts 3 [Some part_A; Some part_B; Some part_C]
     "tmp" 2 1 false "p_" empty_dir).2.

(** The old dataset has the row field [filters], which the new one has
    not; with [row_keep = []] the field is dropped before the schemas
    are compared. *)
Definition old_part : MatrixTable :=
  {| mt_row_key := mt_row_key part_A;
     mt_row_value := [("filters", tset tstr)];
     mt_col_key := mt_col_key part_A;
     mt_col_value := mt_col_value part_A;
     mt_entry_type := mt_entry_type part_A;
     mt_cols := mt_cols part_A;
     mt_rows := mt_rows part_A |}.

(** A partition whose entries have a field of another type. *)
Definition float_part : MatrixTable :=
  {| mt_row_key := mt_row_key part_A;
     mt_row_value := [];
     mt_col_key := mt_col_key part_A;
     mt_col_value := [];
     mt_entry_type := [("coverage", tfloat64)];
     mt_cols := [[Some (VStr "F")]];
     mt_rows := ∅ |}.

(** ** Vocabulary of the further properties *)

(** Strings of decimal digits. *)
Definition is_digit (c : ascii) : bool :=
  match Ascii.is_nat c with Some _ => true | None => false end.

Fixpoint all_digits (s : string) : bool :=
  match s with
  | EmptyString => true
  | String c s' => is_digit c && all_digits s'
  end.

(** The checkpoints that the resume check can see in the directory [σ]
    are still there in [σ']. *)
Definition keeps_checkpoints (temp_dir : string) (σ σ' : fs) : Prop :=
  ∀ s j, is_Some (disk σ !! resume_path temp_dir s j) →
         is_Some (disk σ' !! resume_path temp_dir s j).

(** The test of lines 617-625 on one row and one interval of the BED
    table: the row's start or its end lies in the interval, or the
    interval's start lies in the row's span. *)
Definition hits (r : variant_row) (iv : Interval) : Prop :=
  i_start iv <= locus r <= i_end iv
  ∨ i_start iv <= span_end r <= i_end iv
  ∨ locus r <= i_start iv <= span_end r.

#[global] Instance hits_dec r iv : Decision (hits r iv).
Proof. unfold hits. apply _. Defined.

Definition with_filters (r : variant_row) (f : option (gset string))
  : variant_row :=
  {| locus := locus r; ref_allele := ref_allele r;
     alt_alleles := alt_alleles r; filters := f;
     row_entries := row_entries r |}.

Definition artifact_prone_site : gset string := {[ "artifact_prone_site" ]}.

(** The filter the code gives a row. *)
Definition row_filter (bed : list bed_row) (r : variant_row) : gset string :=
  if decide (Exists (λ b, hits r (interval b)) bed)
  then artifact_prone_site else PASS.

(** The names of all the fields of a dataset. *)
Definition field_names (mt : MatrixTable) : list string :=
  (mt_row_key mt ++ mt_row_value mt ++ mt_col_key mt ++ mt_col_value mt
     ++ mt_entry_type mt).*1.

(** The rows that [collect_vcf_paths] files under the name [k]. *)
Definition filed_under (participants_to_subset : option (list string))
    (single_sample : bool) (k : string) (row : participant) : Prop :=
  match participants_to_subset with
  | Some ps => entity_participant_id row ∈ ps
  | None => True
  end
  ∧ (if single_sample then p_s row else p_batch row) = k.

#[global] Instance filed_under_dec sub single k row :
  Decision (filed_under sub single k row).
Proof. unfold filed_under. destruct sub; apply _. Defined.

(** * Part II: properties *)

(** ** [chunks] *)

Section chunks.
Context {A : Type}.

Lemma chunks_from_concat (items : list A) binsize lst :
  concat (chunks_from items binsize lst) = lst ++ items.
Proof.
  revert lst. induction items as [|x items IH]; intros lst; simpl.
  - case_decide as Hl; simpl.
    + by rewrite !app_nil_r.
    + destruct lst; simpl in *; [done | lia].
  - destruct (_ =? _); simpl; rewrite IH; by rewrite <- ?app_assoc.
Qed.

Lemma chunks_from_sizes (items : list A) binsize lst :
  1 <= binsize →
  Z.of_nat (length lst) < binsize →
  Forall (λ c, 1 <= Z.of_nat (length c) <= binsize)
         (chunks_from items binsize lst)
  ∧ Forall (λ c, Z.of_nat (length c) = binsize)
           (but_last (chunks_from items binsize lst)).
Proof.
  intros Hb. revert lst.
  induction items as [|x items IH]; intros lst Hlst; simpl.
  - case_decide; unfold but_last; simpl.
    + split; [|done]. constructor; [lia | done].
    + by split.
  - destruct (Z.eqb_spec (Z.of_nat (length (lst ++ [x]))) binsize) as [He|Hne].
    + destruct (IH [] ltac:(simpl; lia)) as [IH1 IH2].
      split; [constructor; [lia | done] |].
      unfold but_last in *. simpl.
      destruct (chunks_from items binsize []) as [|c cs] eqn:Hc; simpl; [done|].
      simpl in IH2. rewrite ?Nat.sub_0_r in *.
      by constructor.
    + apply IH. rewrite length_app in *. simpl in *. lia.
Qed.
End chunks.

(** C10: for a bin size of at least 1 the chunks yielded by [chunks]
    concatenate to the input in order, every chunk but the last has
    exactly [binsize] elements, the last has between 1 and [binsize]
    elements, and no chunk is empty. *)
Theorem chunks_partition {A} (items : list A) (binsize : Z) :
  1 <= binsize →
  concat (chunks items binsize) = items
  ∧ Forall (λ c, Z.of_nat (length c) = binsize) (but_last (chunks items binsize))
  ∧ (∀ c, last (chunks items binsize) = Some c →
          1 <= Z.of_nat (length c) <= binsize)
  ∧ Forall (λ c, c ≠ []) (chunks items binsize).
Proof.
  intros Hb.
  destruct (chunks_from_sizes items binsize [] Hb ltac:(simpl; lia)) as [H1 H2].
  split; [apply (chunks_from_concat items binsize []) |].
  split; [done |].
  split.
  - intros c Hc. rewrite Forall_forall in H1. apply H1.
    rewrite last_lookup in Hc. by eapply list_elem_of_lookup_2.
  - eapply Forall_impl; [exact H1 |]. intros [|] ?; simpl in *; [lia | done].
Qed.

Lemma chunks_partition_witness :
  concat (chunks [1; 2; 3; 4; 5] 2) = [1; 2; 3; 4; 5]
  ∧ Forall (λ c, Z.of_nat (length c) = 2) (but_last (chunks [1; 2; 3; 4; 5] 2))
  ∧ (∀ c, last (chunks [1; 2; 3; 4; 5] 2) = Some c →
          1 <= Z.of_nat (length c) <= 2)
  ∧ Forall (λ c, c ≠ []) (chunks [1; 2; 3; 4; 5] 2).
Proof. apply (chunks_partition [1; 2; 3; 4; 5] 2). lia. Defined.

(** ** The passes over the variant MatrixTable *)

Section annotate.
Implicit Types (mt : VariantMT) (r : variant_row) (c : sample).

Lemma annotate_entries_cols f mt : vm_cols (annotate_entries f mt) = vm_cols mt.
Proof. done. Qed.

Lemma annotate_entries_row f mt i r :
  vm_rows mt !! i = Some r →
  ∃ r', vm_rows (annotate_entries f mt) !! i = Some r'
        ∧ locus r' = locus r ∧ ref_allele r' = ref_allele r
        ∧ alt_alleles r' = alt_alleles r ∧ filters r' = filters r
        ∧ row_entries r'
          = zip_with (λ c e, f r c <$> e) (vm_cols mt) (row_entries r).
Proof.
  intros Hr. eexists. unfold annotate_entries; simpl.
  rewrite list_lookup_fmap, Hr. simpl. by repeat split.
Qed.

Lemma annotate_entries_entry f mt i j r c oe :
  vm_rows mt !! i = Some r → vm_cols mt !! j = Some c →
  row_entries r !! j = Some oe →
  ∃ r', vm_rows (annotate_entries f mt) !! i = Some r'
        ∧ locus r' = locus r
        ∧ row_entries r' !! j = Some (f r c <$> oe).
Proof.
  intros Hr Hc He.
  destruct (annotate_entries_row f mt i r Hr) as (r' & Hr' & Hl & _ & _ & _ & Hes).
  exists r'. split; [done|]. split; [done|].
  rewrite Hes, lookup_zip_with, Hc. simpl. by rewrite He.
Qed.

(** On a well-formed matrix (every row has one entry per column) the
    entries of a row are mapped one by one. *)
Lemma annotate_entries_rows f mt :
  Forall (λ r, length (row_entries r) = length (vm_cols mt)) (vm_rows mt) →
  Forall2 (λ r r',
             locus r' = locus r ∧ ref_allele r' = ref_allele r
             ∧ alt_alleles r' = alt_alleles r ∧ filters r' = filters r
             ∧ Forall2 (λ e e', ∃ c, c ∈ vm_cols mt ∧ e' = f r c <$> e)
                       (row_entries r) (row_entries r'))
          (vm_rows mt) (vm_rows (annotate_entries f mt)).
Proof.
  intros Hwf. unfold annotate_entries; simpl.
  apply Forall2_fmap_r, Forall_Forall2_diag.
  eapply Forall_impl; [exact Hwf|]. intros r Hlen; simpl in *.
  repeat split; try done.
  apply Forall2_same_length_lookup. split.
  - rewrite length_zip_with. lia.
  - intros j e e' He He'. rewrite lookup_zip_with in He'.
    destruct (vm_cols mt !! j) as [c|] eqn:Hc; simpl in He'; [|done].
    rewrite He in He'. simpl in He'. injection He' as <-.
    exists c. split; [|done]. by eapply list_elem_of_lookup_2.
Qed.
End annotate.

(** *** [remove_genotype_filters] *)

(** What the pass does to one [FT] value. *)
Lemma remove_filters_FT (R : gset string) (ft : option (gset string)) :
  hl_if_else
    (hl_eq (hl_len_set ((λ x : gset string, x ∖ R) <$> ft)) (Some 0))
    (Some PASS) ((λ x : gset string, x ∖ R) <$> ft)
  = (λ x : gset string, if decide (x ∖ R = ∅) then PASS else x ∖ R) <$> ft.
Proof.
  destruct ft as [x|]; simpl; [|done].
  unfold hl_eq; simpl. case_decide as Hx.
  - rewrite Hx, size_empty. done.
  - destruct (Z.eqb_spec (Z.of_nat (size (x ∖ R))) 0) as [H0|H0]; [|done].
    exfalso. apply Hx, leibniz_equiv, size_empty_inv. lia.
Qed.

Lemma zip_with_fuse {A B C D} (f : A → B → C) (g : A → C → D) cs es :
  zip_with g cs (zip_with f cs es) = zip_with (λ c e, g c (f c e)) cs es.
Proof.
  revert es. induction cs as [|c cs IH]; intros [|e es]; simpl; [done..|].
  by rewrite IH.
Qed.

(** Two entry annotations in a row are one, when the second does not
    look at the row. *)
Lemma annotate_entries_fuse f (g : sample → vcf_entry → vcf_entry) mt :
  annotate_entries (λ _, g) (annotate_entries f mt)
  = annotate_entries (λ r c e, g c (f r c e)) mt.
Proof.
  unfold annotate_entries; simpl. f_equal.
  rewrite <- list_fmap_compose. apply list_fmap_ext. intros _ r _; simpl.
  f_equal. rewrite zip_with_fuse. apply zip_with_ext; [|done..].
  by intros c [e|].
Qed.

Lemma annotate_entries_ext f g mt :
  (∀ r c e, f r c e = g r c e) →
  annotate_entries f mt = annotate_entries g mt.
Proof.
  intros Hfg. unfold annotate_entries. f_equal.
  apply list_fmap_ext. intros _ r _; simpl. f_equal.
  apply zip_with_ext; [|done..]. intros c [e|]; simpl; [|done].
  by rewrite Hfg.
Qed.

Lemma remove_genotype_filters_fused mt R :
  remove_genotype_filters mt R
  = annotate_entries (λ _ _ e, with_FT e (clean_FT R <$> FT e)) mt.
Proof.
  unfold remove_genotype_filters.
  rewrite (annotate_entries_fuse _ (λ _ e, with_FT e _)).
  apply annotate_entries_ext. intros r c e. unfold with_FT; simpl.
  f_equal. apply remove_filters_FT.
Qed.

Lemma clean_FT_nonempty R ft : clean_FT R ft ≠ ∅.
Proof.
  unfold clean_FT, PASS. case_decide; [|done].
  intros He. assert ("PASS" ∈ (∅ : gset string)) as Hin by (rewrite <- He; set_solver).
  set_solver.
Qed.

Lemma clean_FT_default_disjoint ft :
  clean_FT default_filters_to_remove ft ## default_filters_to_remove.
Proof.
  unfold clean_FT. destruct (decide _) as [_|_];
    [|intros x Hx1 Hx2; by apply elem_of_difference in Hx1 as [_ Hx1]].
  unfold PASS, default_filters_to_remove.
  apply disjoint_singleton_l. rewrite !elem_of_union, !elem_of_singleton.
  intros [[[?|?]|?]|?]; discriminate.
Qed.

(** C9, as stated, fails: an entry whose [FT] is missing keeps a
    missing [FT], which is not a non-empty set. *)
Lemma remove_genotype_filters_missing_FT :
  ¬ every_FT_nonempty
      (remove_genotype_filters one_missing_entry default_filters_to_remove).
Proof.
  unfold every_FT_nonempty. intros H.
  apply Forall_cons_1 in H as [H _]. simpl in H.
  apply Forall_cons_1 in H as [H _].
  destruct (H _ eq_refl) as (ft & Hft & _). discriminate.
Qed.

(** C9 (amended): the pass comes between the union and
    [determine_hom_refs]; it leaves the columns and every row field as
    they are, keeps missing entries missing, and in an entry changes
    only [FT]: a missing [FT] stays missing, and a present one becomes
    the set without the four removed filters, or [PASS] when that set
    is empty, so that a present [FT] is never empty afterwards. *)
Theorem remove_genotype_filters_spec (mt : VariantMT) :
  Forall (λ r, length (row_entries r) = length (vm_cols mt)) (vm_rows mt) →
  let R := default_filters_to_remove in
  let mt' := remove_genotype_filters mt R in
  (∀ coverages m, entry_passes mt coverages m = determine_hom_refs mt' coverages m)
  ∧ vm_cols mt' = vm_cols mt
  ∧ Forall2
      (λ r r',
         locus r' = locus r ∧ ref_allele r' = ref_allele r
         ∧ alt_alleles r' = alt_alleles r ∧ filters r' = filters r
         ∧ Forall2
             (λ oe oe',
                match oe, oe' with
                | None, None => True
                | Some e, Some e' =>
                    DP e' = DP e ∧ HL e' = HL e ∧ MQ e' = MQ e
                    ∧ TLOD e' = TLOD e ∧ v2 e' = v2 e
                    ∧ match FT e with
                      | None => FT e' = None
                      | Some ft =>
                          ∃ ft', FT e' = Some ft' ∧ ft' ≠ ∅ ∧ ft' ## R
                                 ∧ (ft ∖ R ≠ ∅ → ft' = ft ∖ R)
                                 ∧ (ft ∖ R = ∅ → ft' = PASS)
                      end
                | _, _ => False
                end)
             (row_entries r) (row_entries r'))
      (vm_rows mt) (vm_rows mt').
Proof.
  intros Hwf R mt'. split; [done|]. split; [done|].
  subst mt'. rewrite remove_genotype_filters_fused.
  eapply Forall2_impl; [apply annotate_entries_rows, Hwf|].
  intros r r' (-> & -> & -> & -> & Hes). repeat split; try done.
  eapply Forall2_impl; [exact Hes|].
  intros [e|] oe' (c & _ & ->); simpl; [|done].
  repeat split; try done.
  destruct (FT e) as [ft|]; simpl; [|done].
  exists (clean_FT R ft). split; [done|].
  split; [apply clean_FT_nonempty|]. split; [apply clean_FT_default_disjoint|].
  unfold clean_FT. split; intros ?; by case_decide.
Qed.

Lemma remove_genotype_filters_spec_witness :
  Forall (λ r, length (row_entries r) = length (vm_cols three_entries))
         (vm_rows three_entries)
  ∧ vm_cols (remove_genotype_filters three_entries default_filters_to_remove)
    = vm_cols three_entries.
Proof.
  assert (Forall (λ r, length (row_entries r) = length (vm_cols three_entries))
                 (vm_rows three_entries)) as Hwf by (repeat constructor).
  split; [exact Hwf|].
  exact (proj1 (proj2 (remove_genotype_filters_spec three_entries Hwf))).
Defined.

Example remove_genotype_filters_three_entries :
  (λ r, (λ oe : option vcf_entry, FT <$> oe) <$> row_entries r)
    <$> vm_rows (remove_genotype_filters three_entries default_filters_to_remove)
  = [[Some None; Some (Some PASS); None]].
Proof. reflexivity. Qed.

(** *** [determine_hom_refs] *)

Lemma determine_hom_refs_fused mt coverages m :
  determine_hom_refs mt coverages m
  = annotate_entries
      (λ r c e, hom_ref_entry m (coverages !! (locus r, s c)) e) mt.
Proof.
  unfold determine_hom_refs.
  rewrite (annotate_entries_fuse _ (λ _ e, Build_vcf_entry _ _ _ _ _ _)).
  by apply annotate_entries_ext.
Qed.

Lemma hom_ref_entry_cases m depth e :
  let e' := hom_ref_entry m depth e in
  MQ e' = MQ e ∧ TLOD e' = TLOD e ∧ v2 e' = v2 e
  ∧ (HL e = None → depth = None →
     HL e' = None ∧ DP e' = None ∧ FT e' = None)
  ∧ (HL e = None → ∀ d, depth = Some d → m < d →
     HL e' = Some 0%Q ∧ FT e' = Some PASS ∧ DP e' = Some d)
  ∧ (HL e = None → ∀ d, depth = Some d → d <= m →
     HL e' = None ∧ FT e' = FT e ∧ DP e' = None)
  ∧ (∀ h, HL e = Some h → e' = e).
Proof.
  destruct e as [dp hl mq tlod ft x]; unfold hom_ref_entry; simpl.
  split; [done|]. split; [done|]. split; [done|].
  split; [by intros -> ->|].
  split.
  { intros -> d -> Hd; simpl. by rewrite (proj2 (Z.ltb_lt m d) Hd), (proj2 (Z.leb_gt d m) Hd). }
  split.
  { intros -> d -> Hd; simpl. by rewrite (proj2 (Z.ltb_ge m d) Hd), (proj2 (Z.leb_le d m) Hd). }
  intros h ->; simpl. by destruct dp.
Qed.

(** C7: in the result of [determine_hom_refs], an entry whose [HL] is
    missing is treated by the coverage looked up for its row and column:
    with no coverage it stays missing ([HL], [DP], [FT] all missing);
    with coverage above the minimum it becomes [HL = 0.0], [FT = PASS],
    [DP] = the coverage; with coverage at or below the minimum its [DP]
    becomes missing and [HL], [FT] stay as they were.  An entry whose
    [HL] is present is unchanged.  [MQ], [TLOD] and the extra fields are
    never touched. *)
Theorem determine_hom_refs_entry (mt : VariantMT) (coverages : CoverageMT)
    (minimum_homref_coverage : Z) (i j : nat) r c e :
  vm_rows mt !! i = Some r → vm_cols mt !! j = Some c →
  row_entries r !! j = Some (Some e) →
  let depth := coverages !! (locus r, s c) in
  ∃ r' e',
    vm_rows (determine_hom_refs mt coverages minimum_homref_coverage) !! i
    = Some r'
    ∧ row_entries r' !! j = Some (Some e')
    ∧ MQ e' = MQ e ∧ TLOD e' = TLOD e ∧ v2 e' = v2 e
    ∧ (HL e = None → depth = None →
       HL e' = None ∧ DP e' = None ∧ FT e' = None)
    ∧ (HL e = None → ∀ d, depth = Some d → minimum_homref_coverage < d →
       HL e' = Some 0%Q ∧ FT e' = Some PASS ∧ DP e' = Some d)
    ∧ (HL e = None → ∀ d, depth = Some d → d <= minimum_homref_coverage →
       HL e' = None ∧ FT e' = FT e ∧ DP e' = None)
    ∧ (∀ h, HL e = Some h → e' = e).
Proof.
  intros Hr Hc He depth. rewrite determine_hom_refs_fused.
  destruct (annotate_entries_entry
              (λ r c e, hom_ref_entry minimum_homref_coverage
                          (coverages !! (locus r, s c)) e)
              mt i j r c (Some e) Hr Hc He) as (r' & Hr' & _ & He').
  exists r', (hom_ref_entry minimum_homref_coverage depth e).
  split; [done|]. split; [done|]. apply hom_ref_entry_cases.
Qed.

Lemma determine_hom_refs_entry_witness :
  ∃ r' e',
    vm_rows (determine_hom_refs three_entries low_and_high_coverage 100) !! 0%nat
    = Some r'
    ∧ row_entries r' !! 0%nat = Some (Some e')
    ∧ HL e' = Some 0%Q ∧ FT e' = Some PASS ∧ DP e' = Some 200.
Proof.
  destruct (determine_hom_refs_entry three_entries low_and_high_coverage 100
              0 0 _ _ _ eq_refl eq_refl eq_refl)
    as (r' & e' & Hr' & He' & _ & _ & _ & _ & Hhigh & _).
  exists r', e'. split; [exact Hr'|]. split; [exact He'|].
  exact (Hhigh eq_refl 200 eq_refl eq_refl).
Defined.

Example determine_hom_refs_three_entries :
  (λ r, (λ oe : option vcf_entry, (λ e, (HL e, DP e, FT e)) <$> oe)
          <$> row_entries r)
    <$> vm_rows (determine_hom_refs three_entries low_and_high_coverage 100)
  = [[Some (Some 0%Q, Some 200, Some PASS);
      Some (None, None, Some {[ "FAIL" ]});
      None]].
Proof. reflexivity. Qed.

(** *** [apply_mito_artifact_filter] *)

Section artifact.
Context (mt : VariantMT) (bed : list bed_row).

Let bed' := (λ b, {| interval := interval b; target := Some "artifact" |}) <$> bed.

Lemma interval_contains_spec iv p :
  interval_contains iv p = true ↔ i_start iv <= p <= i_end iv.
Proof. unfold interval_contains. rewrite andb_true_iff, !Z.leb_le. done. Qed.

Lemma overlaps_spec p :
  hl_gt (hl_len (bed_index bed' p)) (Some 0)
  = Some (bool_decide
            (Exists (λ b, i_start (interval b) <= p <= i_end (interval b)) bed)).
Proof.
  unfold hl_gt, hl_len; simpl. f_equal.
  destruct (bed_index bed' p) as [|b0 l] eqn:Hidx; simpl.
  - symmetry. apply bool_decide_eq_false. rewrite Exists_exists.
    intros (b & Hb & Hp).
    assert ({| interval := interval b; target := Some "artifact" |}
              ∈ bed_index bed' p) as Hin.
    { apply list_elem_of_filter. split; [by apply interval_contains_spec|].
      apply list_elem_of_fmap. eauto. }
    rewrite Hidx in Hin. by apply elem_of_nil in Hin.
  - symmetry. apply bool_decide_eq_true. rewrite Exists_exists.
    assert (b0 ∈ bed_index bed' p) as Hin by (rewrite Hidx; left).
    apply list_elem_of_filter in Hin as [Hp Hin].
    apply list_elem_of_fmap in Hin as (b & -> & Hb).
    exists b. split; [done|]. by apply interval_contains_spec in Hp.
Qed.

Lemma span_spec r :
  r ∈ vm_rows mt →
  hl_is_defined
    ('(_, t) ← head (filter (λ x : variant * option string, x.1 = variant_of r)
                       (b ← bed';
                        (λ v, (v, target b))
                          <$> index_rows_by_region (vm_rows mt)
                                (i_start (interval b))));
     t)
  = Some (bool_decide
            (Exists (λ b, locus r <= i_start (interval b) <= span_end r) bed)).
Proof.
  intros Hr. unfold hl_is_defined. f_equal.
  match goal with |- context [head ?l] => destruct l as [|[v t] l'] eqn:Hl end;
    simpl.
  - symmetry. apply bool_decide_eq_false. rewrite Exists_exists.
    intros (b & Hb & Hp).
    assert ((variant_of r, Some "artifact") ∈ ([] : list (variant * option string)))
      as Hin; [|by apply elem_of_nil in Hin].
    rewrite <- Hl. apply list_elem_of_filter. split; [done|].
    apply list_elem_of_bind.
    exists {| interval := interval b; target := Some "artifact" |}.
    split; [|apply list_elem_of_fmap; eauto]. simpl.
    apply list_elem_of_fmap. exists (variant_of r). split; [done|].
    unfold index_rows_by_region. apply list_elem_of_fmap. exists r.
    split; [done|]. apply list_elem_of_filter. split; [|done].
    by apply interval_contains_spec.
  - assert ((v, t) ∈ (v, t) :: l') as Hin by left.
    rewrite <- Hl in Hin. apply list_elem_of_filter in Hin as [Hv Hin].
    apply list_elem_of_bind in Hin as (b' & Hin & Hb').
    apply list_elem_of_fmap in Hb' as (b & -> & Hb).
    apply list_elem_of_fmap in Hin as (v' & [= -> ->] & Hin).
    unfold index_rows_by_region in Hin.
    apply list_elem_of_fmap in Hin as (r0 & -> & Hin).
    apply list_elem_of_filter in Hin as [Hp _].
    apply interval_contains_spec in Hp. simpl in *.
    symmetry. apply bool_decide_eq_true. rewrite Exists_exists.
    exists b. split; [done|].
    unfold variant_of in Hv. injection Hv as Hloc Href _.
    unfold span_end. rewrite <- Hloc, <- Href. done.
Qed.

Lemma classify r :
  Forall (λ b, i_start (interval b) <= i_end (interval b)) bed →
  r ∈ vm_rows mt →
  ∀ r', r' ∈ vm_rows (apply_mito_artifact_filter mt bed) →
        locus r' = locus r → ref_allele r' = ref_allele r →
        alt_alleles r' = alt_alleles r →
        (flagged bed r ∧ filters r' = Some {[ "artifact_prone_site" ]})
        ∨ (¬ flagged bed r ∧ filters r' = Some PASS).
Proof.
  intros Hbed Hr r' Hr' Hloc Href Halt.
  unfold apply_mito_artifact_filter, annotate_rows_filters in Hr'.
  cbv zeta in Hr'. cbn [vm_rows] in Hr'.
  apply list_elem_of_fmap in Hr' as (r0 & -> & Hr0).
  cbn [filters locus ref_allele alt_alleles] in *.
  fold bed'. rewrite !overlaps_spec, (span_spec r0 Hr0).
  assert (span_end r0 = span_end r) as Hend by (unfold span_end; congruence).
  unfold region; cbn [i_start i_end]. fold (span_end r0). rewrite Hloc, Hend.
  repeat case_bool_decide; simpl;
    try (left; split; [|done]);
    try (right; split; [|done]).
  all: unfold flagged, meets; rewrite Forall_forall in Hbed.
  all: rewrite Exists_exists in *.
  all: try (destruct H as (b & Hb & ?); exists b; split; [done|]; tauto).
  all: try (destruct H0 as (b & Hb & ?); exists b; split; [done|]; tauto).
  - destruct H1 as (b & Hb & Hs). exists b. split; [done|].
    specialize (Hbed b Hb). simpl in Hbed. lia.
  - intros (b & Hb & [Hm|[Hm|Hm]]).
    + apply H. eauto.
    + apply H0. eauto.
    + apply H1. exists b. split; [done|]. specialize (Hbed b Hb). simpl in Hbed. lia.
Qed.
End artifact.

(** C6: over its span [[locus, locus + len(alleles[0]) - 1]] a row gets
    the filter [artifact_prone_site] exactly when its start lies in
    some reference interval, or its end does, or some reference
    interval lies within the span; otherwise it gets [PASS].  Nothing
    else in the row changes. *)
Theorem apply_mito_artifact_filter_classifies (mt : VariantMT)
    (bed : list bed_row) :
  Forall (λ b, i_start (interval b) <= i_end (interval b)) bed →
  let mt' := apply_mito_artifact_filter mt bed in
  vm_cols mt' = vm_cols mt
  ∧ Forall2
      (λ r r',
         locus r' = locus r ∧ ref_allele r' = ref_allele r
         ∧ alt_alleles r' = alt_alleles r ∧ row_entries r' = row_entries r
         ∧ ((flagged bed r ∧ filters r' = Some {[ "artifact_prone_site" ]})
            ∨ (¬ flagged bed r ∧ filters r' = Some PASS)))
      (vm_rows mt) (vm_rows mt').
Proof.
  intros Hbed mt'. split; [done|].
  subst mt'. unfold apply_mito_artifact_filter at 1, annotate_rows_filters.
  cbv zeta. cbn [vm_rows].
  apply Forall2_fmap_r, Forall_Forall2_diag, Forall_forall.
  intros r Hr. cbn [locus ref_allele alt_alleles row_entries].
  repeat (split; [done|]).
  match goal with |- context [filters ?x] => set (r' := x) end.
  apply (classify mt bed r Hbed Hr r'); [|done..].
  unfold apply_mito_artifact_filter, annotate_rows_filters.
  cbv zeta. cbn [vm_rows]. apply list_elem_of_fmap. by exists r.
Qed.

Lemma apply_mito_artifact_filter_classifies_witness :
  Forall2
    (λ r r',
       locus r' = locus r ∧ ref_allele r' = ref_allele r
       ∧ alt_alleles r' = alt_alleles r ∧ row_entries r' = row_entries r
       ∧ ((flagged bed_100 r ∧ filters r' = Some {[ "artifact_prone_site" ]})
          ∨ (¬ flagged bed_100 r ∧ filters r' = Some PASS)))
    (vm_rows two_deletions)
    (vm_rows (apply_mito_artifact_filter two_deletions bed_100)).
Proof.
  apply (apply_mito_artifact_filter_classifies two_deletions bed_100).
  repeat constructor. simpl. lia.
Defined.

Example apply_mito_artifact_filter_two_deletions :
  (λ r, (i_start (region r), i_end (region r), filters r))
    <$> vm_rows (apply_mito_artifact_filter two_deletions bed_100)
  = [ (95, 105, Some {[ "artifact_prone_site" ]}); (50, 60, Some PASS) ].
Proof. reflexivity. Qed.

(** ** The union of localized Tables *)

Lemma elem_of_concat {A} (x : A) (ls : list (list A)) :
  x ∈ concat ls ↔ ∃ l, l ∈ ls ∧ x ∈ l.
Proof.
  induction ls as [|l ls IH]; cbn [concat].
  - split; [by intros ?%elem_of_nil | by intros (? & ?%elem_of_nil & _)].
  - rewrite elem_of_app, IH. split.
    + intros [Hx|(l' & Hl' & Hx)]; [exists l; split; [left | done]|].
      exists l'. split; [by right | done].
    + intros (l' & Hl' & Hx). apply elem_of_cons in Hl' as [->|Hl']; eauto.
Qed.

Section union.
Implicit Types (t : Table) (ts : list Table) (k : RowKey) (g : signature).

Lemma elem_of_key_union ts k :
  k ∈ key_union ts ↔ ∃ t, t ∈ ts ∧ is_Some (tb_rows t !! k).
Proof.
  unfold key_union. rewrite elem_of_union_list. split.
  - intros (X & HX & Hk). apply list_elem_of_fmap in HX as (t & -> & Ht).
    exists t. split; [done|]. by apply elem_of_dom.
  - intros (t & Ht & Hk). exists (dom (tb_rows t)).
    split; [apply list_elem_of_fmap; eauto | by apply elem_of_dom].
Qed.

Lemma lookup_union_rows E ts k :
  union_rows E ts !! k
  = if decide (k ∈ key_union ts) then Some (flat_row E ts k) else None.
Proof.
  unfold union_rows. rewrite map_lookup_imap, lookup_gset_to_gmap.
  destruct (decide (k ∈ key_union ts)) as [Hk|Hk].
  - by rewrite option_guard_True.
  - by rewrite option_guard_False.
Qed.

Lemma lookup_zip_join_rows ts k :
  zip_join_rows ts !! k
  = if decide (k ∈ key_union ts) then Some ((λ t, tb_rows t !! k) <$> ts)
    else None.
Proof.
  unfold zip_join_rows. rewrite map_lookup_imap, lookup_gset_to_gmap.
  destruct (decide (k ∈ key_union ts)) as [Hk|Hk].
  - by rewrite option_guard_True.
  - by rewrite option_guard_False.
Qed.

Lemma null_range E (n : nat) :
  (λ _, hl_null E) <$> seq 0 n = replicate n (hl_null E).
Proof.
  generalize 0%nat. induction n as [|n IH]; intros j; simpl; [done|].
  by rewrite IH.
Qed.

Lemma coalesce_rows E ts k :
  concat (zip_with
            (λ (entries_i : option (list entry)) (cols_i : list fields),
               hl_coalesce entries_i
                 ((λ _, hl_null E) <$> seq 0 (length cols_i)))
            ((λ t, tb_rows t !! k) <$> ts) (tb_cols <$> ts))
  = flat_row E ts k.
Proof.
  unfold flat_row. induction ts as [|t ts IH]; [done|].
  rewrite !fmap_cons. cbn [zip_with concat].
  rewrite IH. f_equal. unfold row_or_fill, hl_coalesce. by rewrite null_range.
Qed.

(** The zip join of tables of one signature succeeds, and flattening it
    gives the closed form. *)
Lemma require_same_ok {B} `{EqDecision B} (f : Table → B) b msg ts :
  Forall (λ t, f t = b) ts →
  require_same f b msg (Localized <$> ts) = Ret ().
Proof.
  induction 1 as [|t ts Ht _ IH]; [done|].
  rewrite fmap_cons. cbn [require_same as_table mbind outcome_bind].
  by rewrite decide_True.
Qed.

Lemma mapM_cons `{MBind F, MRet F} {A B} (f : A → F B) x l :
  mapM f (x :: l) = (y ← f x; k ← mapM f l; mret (y :: k)).
Proof. done. Qed.

Lemma mapM_as_table ts : mapM as_table (Localized <$> ts) = Ret ts.
Proof.
  induction ts as [|t ts IH]; [done|].
  rewrite fmap_cons, mapM_cons, IH. done.
Qed.

Lemma zip_join_flatten g rv ts :
  ts ≠ [] →
  Forall (λ t, sig_of t = g ∧ tb_row_value t = rv) ts →
  ∃ z, multi_way_zip_join (Localized <$> ts) = Ret z
       ∧ flatten_zipped z = union_table g ts.
Proof.
  intros Hne Hsig. destruct ts as [|h ts']; [done|].
  set (ts := h :: ts') in *.
  assert (sig_of h = g ∧ tb_row_value h = rv) as [Hg Hrv]
    by (by apply Forall_cons_1 in Hsig as [? _]).
  eexists. split.
  - unfold multi_way_zip_join. subst ts. rewrite fmap_cons.
    cbv beta iota. rewrite <- fmap_cons.
    cbn [as_table mbind outcome_bind].
    rewrite !require_same_ok; cbn [mbind outcome_bind].
    + rewrite mapM_as_table. reflexivity.
    + eapply Forall_impl; [exact Hsig|]. intros t [Ht _].
      unfold sig_of in *. rewrite <- Hg in Ht. congruence.
    + eapply Forall_impl; [exact Hsig|]. intros t [Ht Hr].
      unfold sig_of in *. rewrite <- Hg in Ht. congruence.
    + eapply Forall_impl; [exact Hsig|]. intros t [Ht _].
      unfold sig_of in *. rewrite <- Hg in Ht. congruence.
  - unfold flatten_zipped, union_table; cbn.
    unfold sig_of in Hg. subst g. cbn. f_equal.
    apply map_eq. intros k. rewrite lookup_fmap, lookup_zip_join_rows.
    rewrite lookup_union_rows. subst ts.
    destruct (decide (k ∈ key_union (h :: ts'))); [|done]. cbn. f_equal.
    apply (coalesce_rows (tb_entry_type h) (h :: ts') k).
Qed.

Lemma length_flat_row E ts k :
  Forall aligned ts →
  length (flat_row E ts k) = length (concat (tb_cols <$> ts)).
Proof.
  unfold flat_row. induction 1 as [|t ts Ht _ IH]; [done|].
  rewrite !fmap_cons. cbn [concat].
  rewrite !length_app, IH. f_equal. unfold row_or_fill.
  destruct (tb_rows t !! k) as [es|] eqn:Hk; simpl.
  - by apply Ht in Hk.
  - by rewrite length_replicate.
Qed.

Lemma union_table_aligned g ts : Forall aligned ts → aligned (union_table g ts).
Proof.
  intros Hts k es. unfold union_table; cbn. rewrite lookup_union_rows.
  case_decide; [|done]. intros [= <-]. by apply length_flat_row.
Qed.

Lemma key_union_union_table g (css : list (list Table)) :
  key_union (union_table g <$> css) = key_union (concat css).
Proof.
  apply set_eq. intros k. rewrite !elem_of_key_union. split.
  - intros (t & Ht & Hk). apply list_elem_of_fmap in Ht as (c & -> & Hc).
    cbn in Hk. rewrite lookup_union_rows in Hk.
    case_decide as Hin; [|by destruct Hk].
    apply elem_of_key_union in Hin as (t & Ht & Hkt).
    exists t. split; [|done]. apply elem_of_concat. eauto.
  - intros (t & Ht & Hk). apply elem_of_concat in Ht as (c & Hc & Ht).
    exists (union_table g c). split; [apply list_elem_of_fmap; eauto|].
    cbn. rewrite lookup_union_rows, decide_True; [done|].
    apply elem_of_key_union. eauto.
Qed.

Lemma flat_row_absent E ts k :
  k ∉ key_union ts →
  flat_row E ts k = replicate (length (concat (tb_cols <$> ts))) (hl_null E).
Proof.
  unfold flat_row. induction ts as [|t ts IH]; intros Hk; [done|].
  rewrite !fmap_cons. cbn [concat].
  rewrite length_app, replicate_add. rewrite IH.
  - f_equal. unfold row_or_fill.
    destruct (tb_rows t !! k) eqn:Hkt; [|done].
    exfalso. apply Hk, elem_of_key_union. exists t. split; [left | by eexists].
  - intros Hin. apply Hk. apply elem_of_key_union in Hin as (t' & ? & ?).
    apply elem_of_key_union. exists t'. split; [by right | done].
Qed.

Lemma flat_row_union_table g (css : list (list Table)) k :
  flat_row g.2 (union_table g <$> css) k = flat_row g.2 (concat css) k.
Proof.
  unfold flat_row. induction css as [|c css IH]; [done|].
  rewrite !fmap_cons. cbn [concat].
  rewrite fmap_app, concat_app, IH. f_equal.
  unfold row_or_fill at 1. cbn [tb_rows tb_cols union_table].
  rewrite lookup_union_rows.
  destruct (decide (k ∈ key_union c)); cbn [default]; [done|].
  symmetry. by apply (flat_row_absent g.2 c k).
Qed.

(** The union of unions of chunks is the union of all tables. *)
Lemma union_table_flatten g (css : list (list Table)) :
  union_table g (union_table g <$> css) = union_table g (concat css).
Proof.
  unfold union_table at 1 3. f_equal.
  - induction css as [|c css IH]; [done|].
    rewrite !fmap_cons. cbn [concat tb_cols union_table].
    by rewrite fmap_app, concat_app, IH.
  - apply map_eq. intros k. rewrite !lookup_union_rows.
    rewrite key_union_union_table. case_decide; [|done].
    f_equal. apply flat_row_union_table.
Qed.

(** A Table that came out of a union is the union of itself alone. *)
Lemma union_table_single g t :
  sig_of t = g → tb_row_value t = [] → union_table g [t] = t.
Proof.
  intros <- Hrv. destruct t as [key rv C E cols rows]; cbn in Hrv. subst rv.
  unfold union_table, sig_of. cbn [fst snd tb_key tb_col_type tb_entry_type tb_cols].
  rewrite list_fmap_singleton. cbn [concat]. rewrite app_nil_r. f_equal.
  apply map_eq. intros k. rewrite lookup_union_rows.
  unfold flat_row, row_or_fill. rewrite list_fmap_singleton.
  cbn [concat tb_rows tb_cols]. rewrite app_nil_r.
  destruct (decide (k ∈ key_union _)) as [Hk|Hk].
  - apply elem_of_key_union in Hk as (t & Ht & [es Hes]).
    apply list_elem_of_singleton in Ht as ->. cbn in Hes. by rewrite Hes.
  - destruct (rows !! k) as [es|] eqn:Hes; [|done].
    exfalso. apply Hk, elem_of_key_union. eexists. split; [left|].
    cbn. by rewrite Hes.
Qed.
End union.

(** ** Jobs and their chunks *)

Section slices.
Context {A : Type}.
Implicit Types (l : list A) (c n i : nat).

Lemma ceil_div_bounds (len c : Z) :
  0 < c → c * (ceil_div len c - 1) < len <= c * ceil_div len c.
Proof.
  intros Hc. unfold ceil_div.
  pose proof (Z.div_mod (- len) c ltac:(lia)) as Hdm.
  pose proof (Z.mod_pos_bound (- len) c Hc) as Hr.
  nia.
Qed.

Lemma take_min_length l n : take (n `min` length l) l = take n l.
Proof.
  destruct (Nat.le_ge_cases n (length l)) as [Hle|Hge].
  - by rewrite Nat.min_l.
  - rewrite Nat.min_r by done. by rewrite !take_ge.
Qed.

Lemma slice_chunk l (c : Z) i :
  0 < c →
  slice l (c * Z.of_nat i) (c * (Z.of_nat i + 1)) = chunk_of (Z.to_nat c) l i.
Proof.
  intros Hc. unfold slice, slice_bound, chunk_of.
  rewrite !(proj2 (Z.ltb_ge _ 0)) by nia.
  destruct (Z_lt_le_dec (c * Z.of_nat i) (Z.of_nat (length l))) as [Hlt|Hge].
  - rewrite (Z.min_l (c * Z.of_nat i)) by lia.
    replace (Z.to_nat (c * Z.of_nat i)) with (Z.to_nat c * i)%nat by nia.
    rewrite <- (take_min_length (drop _ _) (Z.to_nat c)).
    f_equal. rewrite length_drop. lia.
  - rewrite !Z.min_r by nia. rewrite Z.sub_diag. cbn [Z.to_nat take].
    rewrite Nat2Z.id, drop_all. symmetry.
    rewrite drop_ge by nia. by destruct (Z.to_nat c).
Qed.

Lemma concat_chunks c l n :
  concat (chunk_of c l <$> seq 0 n) = take (c * n) l.
Proof.
  induction n as [|n IH].
  - by rewrite Nat.mul_0_r.
  - rewrite seq_S, fmap_app, concat_app, IH. cbn [fmap list_fmap concat].
    rewrite app_nil_r. unfold chunk_of.
    rewrite take_take_drop. f_equal. lia.
Qed.

Lemma chunk_of_nonempty c l i :
  (0 < c)%nat → (c * i < length l)%nat → chunk_of c l i ≠ [].
Proof.
  intros Hc Hi Hnil. apply (f_equal length) in Hnil.
  unfold chunk_of in Hnil. rewrite length_take, length_drop in Hnil.
  simpl in Hnil. lia.
Qed.

Lemma chunk_of_subset c l i x : x ∈ chunk_of c l i → x ∈ l.
Proof.
  unfold chunk_of. intros Hx.
  apply list_elem_of_lookup in Hx as [j Hj].
  rewrite lookup_take_Some in Hj. destruct Hj as [Hj _].
  rewrite lookup_drop in Hj. by eapply list_elem_of_lookup_2.
Qed.
End slices.

Lemma chunk_of_fmap {A B} (f : A → B) c l i :
  chunk_of c (f <$> l) i = f <$> chunk_of c l i.
Proof. unfold chunk_of. by rewrite fmap_take, fmap_drop. Qed.

(** ** The scheduler on a fresh run *)

Lemma mapM_M_ok {A B} (f : A → M B) (g : A → B) (l : list A) :
  (∀ x σ, x ∈ l → ∃ σ', f x σ = (Ret (g x), σ')) →
  ∀ σ, ∃ σ', mapM f l σ = (Ret (g <$> l), σ').
Proof.
  induction l as [|x l IH]; intros Hf σ.
  - by exists σ.
  - destruct (Hf x σ ltac:(left)) as [σ1 H1].
    destruct (IH (λ y σ Hy, Hf y σ ltac:(by right)) σ1) as [σ2 H2].
    exists σ2. rewrite mapM_cons. unfold mbind, M_bind at 1.
    rewrite H1. unfold M_bind at 1. rewrite H2. done.
Qed.

Section fresh.
Variables (temp_dir : string) (chunk_size : Z) (min_partitions : Z)
          (prefix : string) (g : signature).
Hypothesis chunk_size_ge_2 : 2 <= chunk_size.

Let c := Z.to_nat chunk_size.

Abbreviation uniform rv ts :=
  (Forall (λ t, sig_of t = g ∧ tb_row_value t = rv) ts).

Lemma merge_job_ok stage ts rv i σ :
  uniform rv ts → (c * i < length ts)%nat →
  ∃ σ',
    merge_job temp_dir chunk_size min_partitions prefix stage
      (Localized <$> ts) i σ
    = (Ret (Localized (union_table g (chunk_of c ts i))), σ').
Proof.
  intros Hts Hi. unfold merge_job.
  rewrite slice_chunk by lia. fold c. rewrite chunk_of_fmap.
  destruct (zip_join_flatten g rv (chunk_of c ts i)) as (z & Hz & Hflat).
  { apply chunk_of_nonempty; [unfold c; lia | done]. }
  { apply Forall_forall. intros t Ht. rewrite Forall_forall in Hts.
    by eapply Hts, chunk_of_subset. }
  rewrite Hz. unfold mbind, M_bind, lift. rewrite <- Hflat.
  destruct (10 <? min_partitions); eexists; reflexivity.
Qed.

Lemma n_jobs_bounds (len : nat) :
  (2 <= len)%nat →
  let n := Z.to_nat (ceil_div (Z.of_nat len) chunk_size) in
  (1 <= n < len)%nat ∧ (len <= c * n)%nat ∧ (c * (n - 1) < len)%nat.
Proof.
  intros Hlen n.
  pose proof (ceil_div_bounds (Z.of_nat len) chunk_size ltac:(lia)) as Hb.
  subst n c. nia.
Qed.

Lemma stage_body_ok stage ts rv σ :
  uniform rv ts → (2 <= length ts)%nat →
  let n := Z.to_nat (ceil_div (Z.of_nat (length ts)) chunk_size) in
  ∃ σ',
    stage_body temp_dir chunk_size min_partitions false prefix stage
      (Localized <$> ts) σ
    = (Ret (Localized <$> (union_table g <$> (chunk_of c ts <$> seq 0 n))), σ').
Proof.
  intros Hts Hlen n. unfold stage_body, n_jobs_of.
  rewrite decide_False by lia. rewrite length_fmap.
  unfold mbind at 1, M_bind, lift. unfold run_jobs, range. fold n.
  destruct (n_jobs_bounds (length ts) Hlen) as (Hn & _ & Hlast). fold n in Hn, Hlast.
  destruct (mapM_M_ok
              (merge_job temp_dir chunk_size min_partitions prefix stage
                 (Localized <$> ts))
              (λ i, Localized (union_table g (chunk_of c ts i)))
              (seq 0 n)) with (σ := σ) as [σ' Hσ'].
  { intros i σ0 Hi. apply elem_of_seq in Hi.
    apply (merge_job_ok stage ts rv i σ0 Hts). nia. }
  exists σ'. rewrite Hσ'. f_equal. f_equal.
  by rewrite <- !list_fmap_compose.
Qed.

(** The loop ends with one Table: the only input, or the union of all
    inputs. *)
Lemma stages_fresh fuel : ∀ ts rv stage σ,
  ts ≠ [] → uniform rv ts → (length ts <= fuel)%nat →
  ∃ t σ',
    stages temp_dir chunk_size min_partitions false prefix fuel stage
      (Localized <$> ts) σ
    = (Ret [Localized t], σ')
    ∧ (length ts = 1%nat → ts = [t])
    ∧ ((1 < length ts)%nat → t = union_table g ts).
Proof.
  induction fuel as [|fuel IH]; intros ts rv stage σ Hne Hts Hfuel.
  - destruct ts as [|t [|??]]; [done| |simpl in Hfuel; lia].
    exists t, σ. split; [done|]. split; [done|]. simpl; lia.
  - destruct ts as [|t0 [|t1 ts']] eqn:Heq; [done| |].
    { exists t0, σ. split; [done|]. split; [done|]. simpl; lia. }
    rewrite <- Heq in *. assert (2 <= length ts)%nat as Hlen by (subst; simpl; lia).
    cbn [stages]. rewrite decide_True by (rewrite length_fmap; lia).
    destruct (stage_body_ok stage ts rv σ Hts Hlen) as [σ1 H1].
    destruct (n_jobs_bounds (length ts) Hlen) as (Hn & Hcover & _).
    set (n := Z.to_nat (ceil_div (Z.of_nat (length ts)) chunk_size)) in *.
    set (css := chunk_of c ts <$> seq 0 n) in *.
    unfold mbind, M_bind. rewrite H1.
    destruct (IH (union_table g <$> css) [] (S stage) σ1) as (t & σ2 & H2 & Hone & Hmany).
    { subst css. destruct n; [lia|]. done. }
    { apply Forall_forall. intros t Ht.
      apply list_elem_of_fmap in Ht as (cs & -> & _). by destruct g as [[??]?]. }
    { subst css. rewrite !length_fmap, length_seq. lia. }
    exists t, σ2. split; [done|]. split; [lia|]. intros _.
    assert (t = union_table g (union_table g <$> css)) as ->.
    { destruct (decide (length (union_table g <$> css) = 1%nat)) as [H1'|H1'].
      - assert (t ∈ union_table g <$> css) as Ht by (rewrite (Hone H1'); left).
        apply list_elem_of_fmap in Ht as (cs & Ht & _).
        rewrite (Hone H1'). symmetry.
        apply union_table_single; rewrite Ht; [by destruct g as [[??]?] | done].
      - apply Hmany. subst css. rewrite !length_fmap, length_seq in *. lia. }
    rewrite union_table_flatten. f_equal.
    subst css. rewrite concat_chunks. by apply take_ge.
Qed.
End fresh.

(** ** [multi_way_union_mts] on a fresh run *)

Lemma initial_staging_fresh (mts : list MatrixTable) :
  initial_staging false (Some <$> mts)
  = Ret (Localized <$> (localize_entries <$> mts)).
Proof.
  unfold initial_staging. induction mts as [|m mts IH]; [done|].
  rewrite !fmap_cons, mapM_cons, IH. done.
Qed.

Lemma union_rows_single E t : union_rows E [t] = tb_rows t.
Proof.
  apply map_eq. intros k. rewrite lookup_union_rows.
  unfold flat_row, row_or_fill. rewrite list_fmap_singleton.
  cbn [concat]. rewrite app_nil_r.
  destruct (decide (k ∈ key_union [t])) as [Hk|Hk].
  - apply elem_of_key_union in Hk as (t' & Ht & [es Hes]).
    apply list_elem_of_singleton in Ht as ->. by rewrite Hes.
  - destruct (tb_rows t !! k) as [es|] eqn:Hes; [|done].
    exfalso. apply Hk, elem_of_key_union. exists t. split; [left | by eexists].
Qed.

Lemma unlocalize_entries_ok t (col_key col_value : tstruct) :
  tb_col_type t = col_key ++ col_value → aligned t →
  unlocalize_entries t col_key.*1
  = Ret {| mt_row_key := tb_key t;
           mt_row_value := tb_row_value t;
           mt_col_key := col_key;
           mt_col_value := col_value;
           mt_entry_type := tb_entry_type t;
           mt_cols := tb_cols t;
           mt_rows := tb_rows t |}.
Proof.
  intros Hc Hal. unfold unlocalize_entries.
  rewrite length_fmap, Hc, take_app_length, drop_app_length.
  rewrite decide_True by done. by rewrite decide_True.
Qed.

Section fresh_run.
Variables (temp_dir : string) (chunk_size : Z) (min_partitions : Z)
          (prefix : string).
Hypothesis chunk_size_ge_2 : 2 <= chunk_size.

(** On a fresh run over compatible inputs the scheduler terminates and
    returns the one-step union, whatever the chunk size and whatever
    the temporary directory holds. *)
Lemma multi_way_union_mts_fresh fuel (h : MatrixTable) (rest : list MatrixTable) σ :
  let mts := h :: rest in
  compatible mts → Forall mt_aligned mts → (length mts <= fuel)%nat →
  ∃ σ',
    multi_way_union_mts fuel (Some <$> mts) temp_dir chunk_size min_partitions
      false prefix σ
    = (Ret (reference_union h mts), σ').
Proof.
  intros mts Hcompat Hal Hfuel.
  set (g := sig_of (localize_entries h)).
  set (ts := localize_entries <$> mts).
  assert (Forall (λ t, sig_of t = g ∧ tb_row_value t = mt_row_value h) ts) as Hts.
  { apply Forall_forall. intros t Ht.
    apply list_elem_of_fmap in Ht as (m & -> & Hm).
    assert (mt_schema m = mt_schema h) as Hs
      by (apply Hcompat; [done | left]).
    unfold mt_schema in Hs. injection Hs as Hrk Hrv Hck Hcv He.
    unfold g, sig_of, localize_entries, col_dtype; cbn. by rewrite Hrk, Hck, Hcv, He. }
  assert (Forall aligned ts) as Hal'.
  { apply Forall_fmap. eapply Forall_impl; [exact Hal|]. by intros m Hm. }
  destruct (stages_fresh temp_dir chunk_size min_partitions prefix g
              chunk_size_ge_2 fuel ts (mt_row_value h) 0%nat σ)
    as (t & σ' & Hrun & Hone & Hmany).
  { done. }
  { done. }
  { unfold ts. by rewrite length_fmap. }
  exists σ'. unfold multi_way_union_mts.
  rewrite initial_staging_fresh. fold ts.
  unfold mbind at 1, M_bind at 1, lift at 1.
  unfold mbind at 1, M_bind at 1. rewrite Hrun.
  unfold lift. f_equal. unfold finish.
  cbn [as_table mbind outcome_bind].
  change (Some <$> mts) with (Some h :: (Some <$> rest)).
  cbn [mbind outcome_bind].
  assert (length ts = length mts) as Hlen by (unfold ts; by rewrite length_fmap).
  destruct (decide (length mts = 1%nat)) as [H1|H1].
  - destruct rest; [|simpl in H1; lia].
    assert (t = localize_entries h) as -> by (by injection (Hone Hlen)).
    rewrite (unlocalize_entries_ok _ (mt_col_key h) (mt_col_value h));
      [|done|by apply Forall_cons_1 in Hal' as [? _]].
    cbn [mbind outcome_bind]. f_equal.
    unfold unfilter_entries, reference_union, reference_rows; cbn.
    by rewrite app_nil_r, union_rows_single.
  - rewrite Hmany by (subst mts; simpl in *; lia).
    rewrite (unlocalize_entries_ok _ (mt_col_key h) (mt_col_value h));
      [|done|by apply union_table_aligned].
    cbn [mbind outcome_bind]. f_equal.
    unfold unfilter_entries, reference_union, reference_rows; cbn.
    rewrite decide_False by done. f_equal.
    unfold ts. by rewrite <- list_fmap_compose.
Qed.
End fresh_run.

(** *** The end-to-end example *)

Lemma single_column_aligned sample value :
  mt_aligned (single_column sample value).
Proof.
  intros k es Hk. cbn [single_column mt_rows] in Hk.
  apply lookup_singleton_Some in Hk as [_ <-]. done.
Qed.

Lemma three_partitions_ok :
  compatible [part_A; part_B; part_C]
  ∧ Forall mt_aligned [part_A; part_B; part_C].
Proof.
  split.
  - intros m1 m2 H1 H2.
    repeat (apply elem_of_cons in H1 as [->|H1]); [| | |by apply elem_of_nil in H1];
      repeat (apply elem_of_cons in H2 as [->|H2]); try done;
      by apply elem_of_nil in H2.
  - repeat (apply Forall_cons; split; [apply single_column_aligned|]).
    by apply Forall_nil.
Qed.

Section properties_of_the_union.
Variables (h : MatrixTable) (rest : list MatrixTable).
Let mts := h :: rest.
Let E := mt_entry_type h.

Lemma reference_union_lookup k :
  mt_rows (reference_union h mts) !! k
  = if decide (Exists (λ m, is_Some (mt_rows m !! k)) mts)
    then Some (concat ((λ m, unfilter E
                               <$> default (replicate (length (mt_cols m)) (hl_null E))
                                     (mt_rows m !! k)) <$> mts))
    else None.
Proof.
  unfold reference_union, reference_rows. cbn [mt_rows].
  rewrite lookup_fmap, lookup_union_rows.
  destruct (decide (k ∈ key_union (localize_entries <$> mts))) as [Hk|Hk].
  - rewrite decide_True.
    + cbn [fmap option_fmap option_map]. f_equal. unfold flat_row.
      generalize mts. intros l. induction l as [|m l IH]; [done|].
      rewrite !fmap_cons. cbn [concat]. rewrite fmap_app, IH. done.
    + apply elem_of_key_union in Hk as (t & Ht & Hk).
      apply list_elem_of_fmap in Ht as (m & -> & Hm).
      apply Exists_exists. eauto.
  - rewrite decide_False; [done|]. rewrite Exists_exists. intros (m & Hm & Hk').
    apply Hk, elem_of_key_union. exists (localize_entries m).
    split; [apply list_elem_of_fmap; eauto | done].
Qed.
End properties_of_the_union.

(** C1: on compatible inputs [multi_way_union_mts] returns a MatrixTable
    whose columns are the inputs' columns in input order and which has
    exactly one row for every key that some input has, the row holding
    for each input in turn the input's entries for the key (nulls of the
    entry type where the input lacks the key).  And the example: three
    single-column partitions with the row [(MT, 100)] and the values 5,
    7, 9, merged with chunk size 2, give the single row [[5, 7, 9]]
    after two stages (jobs 0 and 1 of stage 0, job 0 of stage 1). *)
Theorem multi_way_union_mts_union :
  (∀ (h : MatrixTable) (rest : list MatrixTable) (temp_dir : string)
     (chunk_size min_partitions : Z) (prefix : string) (fuel : nat) (σ : fs),
     let mts := h :: rest in
     let E := mt_entry_type h in
     2 <= chunk_size → compatible mts → Forall mt_aligned mts →
     (length mts <= fuel)%nat →
     ∃ res σ',
       multi_way_union_mts fuel (Some <$> mts) temp_dir chunk_size
         min_partitions false prefix σ
       = (Ret res, σ')
       ∧ mt_cols res = concat (mt_cols <$> mts)
       ∧ (∀ k, is_Some (mt_rows res !! k)
               ↔ ∃ m, m ∈ mts ∧ is_Some (mt_rows m !! k))
       ∧ NoDup (map_to_list (mt_rows res)).*1
       ∧ (∀ k row, mt_rows res !! k = Some row →
            row = concat ((λ m, unfilter E
                                  <$> default
                                        (replicate (length (mt_cols m)) (hl_null E))
                                        (mt_rows m !! k)) <$> mts)))
  ∧ (let run :=
       multi_way_union_mts 3 [Some part_A; Some part_B; Some part_C]
         "tmp" 2 1 false "" empty_dir in
     ∃ res,
       run.1 = Ret res
       ∧ mt_cols res = [[Some (VStr "A")]; [Some (VStr "B")]; [Some (VStr "C")]]
       ∧ map_to_list (mt_rows res)
         = [(("MT", 100, []),
             [Entry coverage_entry (Some [Some (VInt 5)]);
              Entry coverage_entry (Some [Some (VInt 7)]);
              Entry coverage_entry (Some [Some (VInt 9)])])]
       ∧ written run.2
         = ["tmp/stage_0_job_0.ht"; "tmp/stage_0_job_1.ht";
            "tmp/stage_1_job_0.ht"]).
Proof.
  split.
  - intros h rest temp_dir chunk_size min_partitions prefix fuel σ mts E
      Hcs Hcompat Hal Hfuel.
    destruct (multi_way_union_mts_fresh temp_dir chunk_size min_partitions
                prefix Hcs fuel h rest σ Hcompat Hal Hfuel) as [σ' Hrun].
    exists (reference_union h mts), σ'. split; [done|]. split; [done|].
    split; [|split].
    + intros k. subst mts. rewrite reference_union_lookup, <- Exists_exists.
      case_decide as Hk; split; try done; by intros [??].
    + apply NoDup_fst_map_to_list.
    + intros k row. subst mts E. rewrite reference_union_lookup.
      case_decide; [|done]. by intros [= <-].
  - eexists. repeat split; vm_compute; reflexivity.
Qed.

Lemma multi_way_union_mts_union_witness :
  ∃ res σ',
    multi_way_union_mts 3 (Some <$> [part_A; part_B; part_C]) "tmp" 2 1 false
      "" empty_dir
    = (Ret res, σ')
    ∧ mt_cols res = concat (mt_cols <$> [part_A; part_B; part_C]).
Proof.
  destruct three_partitions_ok as [Hc Ha].
  destruct (proj1 multi_way_union_mts_union part_A [part_B; part_C] "tmp" 2 1
              "" 3%nat empty_dir ltac:(lia) Hc Ha ltac:(simpl; lia))
    as (res & σ' & Hrun & Hcols & _).
  exists res, σ'. split; [exact Hrun | exact Hcols].
Defined.

(** C5: for one list of compatible inputs, the scheduler run with any
    two chunk sizes of at least 2 returns the same MatrixTable: the same
    columns, the same row keys and the same entries in every row. *)
Theorem chunk_size_invariance (h : MatrixTable) (rest : list MatrixTable)
    (temp_dir : string) (chunk_size1 chunk_size2 min_partitions : Z)
    (prefix : string) (fuel : nat) (σ : fs) :
  let mts := h :: rest in
  2 <= chunk_size1 → 2 <= chunk_size2 →
  compatible mts → Forall mt_aligned mts → (length mts <= fuel)%nat →
  ∃ res σ1 σ2,
    multi_way_union_mts fuel (Some <$> mts) temp_dir chunk_size1
      min_partitions false prefix σ
    = (Ret res, σ1)
    ∧ multi_way_union_mts fuel (Some <$> mts) temp_dir chunk_size2
        min_partitions false prefix σ
      = (Ret res, σ2).
Proof.
  intros mts H1 H2 Hc Ha Hfuel.
  destruct (multi_way_union_mts_fresh temp_dir chunk_size1 min_partitions
              prefix H1 fuel h rest σ Hc Ha Hfuel) as [σ1 Hrun1].
  destruct (multi_way_union_mts_fresh temp_dir chunk_size2 min_partitions
              prefix H2 fuel h rest σ Hc Ha Hfuel) as [σ2 Hrun2].
  by exists (reference_union h mts), σ1, σ2.
Qed.

Lemma chunk_size_invariance_witness :
  ∃ res σ1 σ2,
    multi_way_union_mts 3 (Some <$> [part_A; part_B; part_C]) "tmp" 2 1 false
      "" empty_dir
    = (Ret res, σ1)
    ∧ multi_way_union_mts 3 (Some <$> [part_A; part_B; part_C]) "tmp" 3 1 false
        "" empty_dir
      = (Ret res, σ2).
Proof.
  destruct three_partitions_ok as [Hc Ha].
  exact (chunk_size_invariance part_A [part_B; part_C] "tmp" 2 3 1 "" 3%nat
           empty_dir ltac:(lia) ltac:(lia) Hc Ha ltac:(simpl; lia)).
Defined.

(** ** Null fill *)

(** C2: in the union of tables of one schema, take a key [k] that some
    table has and a table [B] that lacks it.  The row of [k] in the
    result holds, at the place of [B]'s columns, exactly one null per
    column of [B]; each is the missing struct of [B]'s entry type, no
    field of it holds a value (no zero, no empty string), and
    unfiltering turns it into the struct of that type whose fields are
    all missing.  The entries before and after it are as many as the
    columns before and after [B]'s, so rows stay aligned with the
    columns. *)
Theorem null_fill_typed (l1 l2 : list Table) (B : Table) (k : RowKey) :
  let ts := l1 ++ B :: l2 in
  let E := tb_entry_type B in
  (∀ t, t ∈ ts → sig_of t = sig_of B ∧ tb_row_value t = tb_row_value B) →
  Forall aligned ts →
  (∃ A, A ∈ ts ∧ is_Some (tb_rows A !! k)) →
  tb_rows B !! k = None →
  ∃ z row1 fill row2,
    multi_way_zip_join (Localized <$> ts) = Ret z
    ∧ tb_cols (flatten_zipped z)
      = concat (tb_cols <$> l1) ++ tb_cols B ++ concat (tb_cols <$> l2)
    ∧ tb_rows (flatten_zipped z) !! k = Some (row1 ++ fill ++ row2)
    ∧ length row1 = length (concat (tb_cols <$> l1))
    ∧ length fill = length (tb_cols B)
    ∧ length row2 = length (concat (tb_cols <$> l2))
    ∧ Forall (λ e, e = hl_null E ∧ e_dtype e = E ∧ e_fields e = None
                   ∧ unfilter E e = Entry E (Some (replicate (length E) None)))
             fill.
Proof.
  intros ts E Hsig Hal Hk HB.
  destruct (zip_join_flatten (sig_of B) (tb_row_value B) ts) as (z & Hz & Hflat).
  { subst ts. by destruct l1. }
  { by apply Forall_forall. }
  exists z, (flat_row E l1 k), (replicate (length (tb_cols B)) (hl_null E)),
         (flat_row E l2 k).
  split; [done|]. rewrite Hflat. unfold union_table. cbn [tb_cols tb_rows snd sig_of].
  apply Forall_app in Hal as [Hal1 Hal2].
  apply Forall_cons_1 in Hal2 as [_ Hal2].
  split; [|split; [|split; [|split; [|split]]]].
  - subst ts. rewrite fmap_app, concat_app, fmap_cons. done.
  - rewrite lookup_union_rows, decide_True by (by apply elem_of_key_union).
    f_equal. subst ts. unfold flat_row at 1.
    rewrite fmap_app, concat_app, fmap_cons. cbn [concat].
    unfold row_or_fill at 2. rewrite HB. done.
  - by apply length_flat_row.
  - by rewrite length_replicate.
  - by apply length_flat_row.
  - apply Forall_replicate. repeat split.
    unfold unfilter, hl_null; cbn. f_equal. f_equal.
    generalize E. clear. intros E. induction E as [|f E IH]; [done|].
    rewrite fmap_cons. cbn [length replicate]. by rewrite IH.
Qed.

Lemma null_fill_typed_witness :
  ∃ z row1 fill row2,
    multi_way_zip_join (Localized <$> [table_A] ++ table_B :: []) = Ret z
    ∧ tb_rows (flatten_zipped z) !! ("MT", 100, []) = Some (row1 ++ fill ++ row2)
    ∧ length fill = 2%nat
    ∧ Forall (λ e, e = hl_null coverage_entry) fill.
Proof.
  destruct (null_fill_typed [table_A] [] table_B ("MT", 100, []))
    as (z & row1 & fill & row2 & Hz & _ & Hrow & _ & Hlen & _ & Hfill).
  - intros t Ht. apply elem_of_cons in Ht as [->|Ht]; [done|].
    apply elem_of_cons in Ht as [->|Ht]; [done|]. by apply elem_of_nil in Ht.
  - repeat (apply Forall_cons; split); [| |by apply Forall_nil];
      intros k es Hk; cbn in Hk;
      apply lookup_singleton_Some in Hk as [_ <-]; done.
  - exists table_A. split; [left|]. by eexists.
  - reflexivity.
  - exists z, row1, fill, row2. repeat split; try done.
    eapply Forall_impl; [exact Hfill|]. by intros e (? & _).
Defined.

Example null_fill_A_B :
  (z ← multi_way_zip_join [Localized table_A; Localized table_B];
   Ret (map_to_list (tb_rows (flatten_zipped z))))
  = Ret [ (("MT", 100, []),
           [Entry coverage_entry (Some [Some (VInt 5)]);
            hl_null coverage_entry; hl_null coverage_entry]);
          (("MT", 200, []),
           [hl_null coverage_entry;
            Entry coverage_entry (Some [Some (VInt 1)]);
            Entry coverage_entry (Some [Some (VInt 2)])]) ].
Proof. vm_compute. reflexivity. Qed.

(** ** Resuming from checkpoints *)

Section resume.
Variables (temp_dir : string) (chunk_size : Z) (min_partitions : Z)
          (prefix : string).

Lemma all_exists_stage_0 idxs σ :
  missing_marker temp_dir σ 0 idxs →
  all_exists temp_dir 0 idxs σ = (Raise ResumeInvariantViolation, σ).
Proof.
  intros (j & Hj & Hmiss). induction idxs as [|i idxs IH]; [by apply elem_of_nil in Hj|].
  cbn [all_exists]. unfold mbind, M_bind, hadoop_is_file_SUCCESS.
  destruct (disk σ !! resume_path temp_dir 0 i) as [t|] eqn:Hi.
  - rewrite bool_decide_eq_true_2 by eauto.
    apply IH. apply elem_of_cons in Hj as [->|Hj]; [congruence | done].
  - rewrite bool_decide_eq_false_2 by (by intros [??]). done.
Qed.

Lemma all_exists_later_stage stage idxs σ :
  stage ≠ 0%nat → missing_marker temp_dir σ stage idxs →
  all_exists temp_dir stage idxs σ = (Ret false, σ).
Proof.
  intros Hstage (j & Hj & Hmiss).
  induction idxs as [|i idxs IH]; [by apply elem_of_nil in Hj|].
  cbn [all_exists]. unfold mbind, M_bind, hadoop_is_file_SUCCESS.
  destruct (disk σ !! resume_path temp_dir stage i) as [t|] eqn:Hi.
  - rewrite bool_decide_eq_true_2 by eauto.
    apply IH. apply elem_of_cons in Hj as [->|Hj]; [congruence | done].
  - rewrite bool_decide_eq_false_2 by (by intros [??]).
    by rewrite decide_False.
Qed.

Lemma merge_job_value stage staging i σ :
  (merge_job temp_dir chunk_size min_partitions prefix stage staging i σ).1
  = job_value chunk_size staging i.
Proof.
  unfold merge_job, job_value, mbind, M_bind, lift.
  destruct (multi_way_zip_join _) as [z| |]; cbn; [|done..].
  by destruct (10 <? min_partitions).
Qed.

Lemma run_jobs_value stage staging n σ :
  (run_jobs temp_dir chunk_size min_partitions prefix stage staging n σ).1
  = mapM (job_value chunk_size staging) (range n).
Proof.
  unfold run_jobs. generalize (range n). intros l. revert σ.
  induction l as [|i l IH]; intros σ; [done|].
  rewrite !mapM_cons. unfold mbind at 1, M_bind at 1.
  pose proof (merge_job_value stage staging i σ) as Hi.
  destruct (merge_job _ _ _ _ _ _ _ σ) as [[x| |] σ1]; cbn in Hi; rewrite <- Hi;
    [|done..].
  cbn [mbind outcome_bind]. unfold mbind at 1, M_bind at 1.
  specialize (IH σ1).
  destruct (mapM (merge_job temp_dir chunk_size min_partitions prefix stage
                    staging) l σ1) as [[xs| |] σ2];
    cbn in IH; rewrite <- IH; done.
Qed.
End resume.

Lemma resume_fails_at_stage_0 (temp_dir : string)
    (chunk_size min_partitions : Z) (prefix : string)
    (mts : list (option MatrixTable)) (fuel : nat) (σ : fs) :
  (1 < length mts)%nat → (0 < fuel)%nat →
  missing_marker temp_dir σ 0
    (range (ceil_div (Z.of_nat (length mts)) chunk_size)) →
  multi_way_union_mts fuel mts temp_dir chunk_size min_partitions true
    prefix σ
  = (Raise ResumeInvariantViolation, σ).
Proof.
  intros Hlen Hfuel Hmiss.
  destruct fuel as [|fuel]; [lia|].
  unfold multi_way_union_mts, initial_staging.
  unfold mbind at 1, M_bind at 1, lift at 1.
  unfold mbind at 1, M_bind at 1.
  cbn [stages]. rewrite decide_True by (by rewrite length_fmap).
  unfold stage_body, n_jobs_of. rewrite length_fmap.
  destruct (decide (chunk_size = 0)) as [->|Hcs].
  { destruct Hmiss as (j & Hj & _). unfold ceil_div, range in Hj.
    rewrite Z.div_0_r in Hj. by apply elem_of_nil in Hj. }
  unfold mbind at 1, M_bind at 1, lift at 1.
  unfold mbind at 1, M_bind at 1, lift at 1.
  unfold mbind at 1, M_bind at 1.
  by rewrite (all_exists_stage_0 temp_dir _ σ Hmiss).
Qed.

Lemma resume_recomputes_later_stage (temp_dir : string)
    (chunk_size min_partitions : Z) (prefix : string)
    (stage : nat) (staging : list staged) (σ : fs) :
  stage ≠ 0%nat →
  let n_jobs := ceil_div (Z.of_nat (length staging)) chunk_size in
  missing_marker temp_dir σ stage (range n_jobs) →
  stage_body temp_dir chunk_size min_partitions true prefix stage staging σ
  = run_jobs temp_dir chunk_size min_partitions prefix stage staging n_jobs σ
  ∧ stage_body temp_dir chunk_size min_partitions true prefix stage staging σ
    = stage_body temp_dir chunk_size min_partitions false prefix stage
        staging σ.
Proof.
  intros Hstage n_jobs Hmiss.
  assert (chunk_size ≠ 0) as Hcs.
  { intros ->. destruct Hmiss as (j & Hj & _). unfold n_jobs, ceil_div, range in Hj.
    rewrite Z.div_0_r in Hj. by apply elem_of_nil in Hj. }
  assert (stage_body temp_dir chunk_size min_partitions true prefix stage
            staging σ
          = run_jobs temp_dir chunk_size min_partitions prefix stage staging
              n_jobs σ) as Hbody.
  { unfold stage_body, n_jobs_of. rewrite decide_False by done.
    unfold mbind at 1, M_bind at 1, lift at 1.
    unfold mbind at 1, M_bind at 1. fold n_jobs.
    by rewrite (all_exists_later_stage temp_dir stage _ σ Hstage Hmiss). }
  split; [done|].
  rewrite Hbody. unfold stage_body, n_jobs_of. by rewrite decide_False.
Qed.

(** C4: with [check_from_disk] set, a missing success marker among the
    jobs of stage 0 makes the run fail with the error of line 43, with
    nothing computed or written; at a later stage a missing marker makes
    the stage run as on a fresh run: every job of the stage is computed
    from [staging], and what the jobs return does not depend on what the
    directory holds. *)
Theorem resume_with_missing_markers (temp_dir : string)
    (chunk_size min_partitions : Z) (prefix : string) :
  (∀ (mts : list (option MatrixTable)) (fuel : nat) (σ : fs),
     (1 < length mts)%nat → (0 < fuel)%nat →
     missing_marker temp_dir σ 0
       (range (ceil_div (Z.of_nat (length mts)) chunk_size)) →
     multi_way_union_mts fuel mts temp_dir chunk_size min_partitions true
       prefix σ
     = (Raise ResumeInvariantViolation, σ))
  ∧ (∀ (stage : nat) (staging : list staged) (σ : fs),
       stage ≠ 0%nat →
       let n_jobs := ceil_div (Z.of_nat (length staging)) chunk_size in
       missing_marker temp_dir σ stage (range n_jobs) →
       stage_body temp_dir chunk_size min_partitions true prefix stage
         staging σ
       = run_jobs temp_dir chunk_size min_partitions prefix stage staging
           n_jobs σ
       ∧ stage_body temp_dir chunk_size min_partitions true prefix stage
           staging σ
         = stage_body temp_dir chunk_size min_partitions false prefix stage
             staging σ
       ∧ ∀ σ2,
           (run_jobs temp_dir chunk_size min_partitions prefix stage staging
              n_jobs σ2).1
           = mapM (job_value chunk_size staging) (range n_jobs)).
Proof.
  split.
  - intros mts fuel σ. apply resume_fails_at_stage_0.
  - intros stage staging σ Hstage n_jobs Hmiss.
    destruct (resume_recomputes_later_stage temp_dir chunk_size min_partitions
                prefix stage staging σ Hstage Hmiss) as [H1 H2].
    split; [done|]. split; [done|]. intros σ2. apply run_jobs_value.
Qed.

Lemma resume_with_missing_markers_witness :
  multi_way_union_mts 3 [Some part_A; Some part_B; Some part_C] "tmp" 2 1 true
    "" empty_dir
  = (Raise ResumeInvariantViolation, empty_dir)
  ∧ stage_body "tmp" 2 1 true "" 1
      [Localized table_A; Localized table_A; Localized table_C] partial_stage_1
    = run_jobs "tmp" 2 1 "" 1
        [Localized table_A; Localized table_A; Localized table_C] 2
        partial_stage_1.
Proof.
  split.
  - apply (proj1 (resume_with_missing_markers "tmp" 2 1 "")); simpl; [lia..|].
    exists 0%nat. split; [|reflexivity]. apply list_elem_of_In. vm_compute. auto.
  - apply (proj2 (resume_with_missing_markers "tmp" 2 1 "") 1%nat
             [Localized table_A; Localized table_A; Localized table_C]
             partial_stage_1); [done|].
    exists 1%nat. split; [|reflexivity]. apply list_elem_of_In. vm_compute. auto.
Defined.

(** ** Checkpoint keys *)

(** With an empty prefix, as in the one call that may set
    [check_from_disk], the resume check looks where the jobs write. *)
Lemma resume_path_empty_prefix temp_dir stage i :
  job_path temp_dir "" stage i = resume_path temp_dir stage i.
Proof. reflexivity. Qed.

(** C3 fails on the code for a non-empty prefix: a job writes to the key
    with the prefix, the resume check looks at the key without it.  A
    fresh run with prefix ["p_"] completes and writes its three
    checkpoints; the run resumed in the directory it leaves, with the
    same prefix, finds none of them and stops with the error of
    line 43. *)
Theorem resume_ignores_prefix :
  job_path "tmp" "p_" 0 0 = "tmp/p_stage_0_job_0.ht"
  ∧ resume_path "tmp" 0 0 = "tmp/stage_0_job_0.ht"
  ∧ job_path "tmp" "p_" 0 0 ≠ resume_path "tmp" 0 0
  ∧ written after_prefixed_run
    = ["tmp/p_stage_0_job_0.ht"; "tmp/p_stage_0_job_1.ht";
       "tmp/p_stage_1_job_0.ht"]
  ∧ multi_way_union_mts 3 [Some part_A; Some part_B; Some part_C]
      "tmp" 2 1 true "p_" after_prefixed_run
    = (Raise ResumeInvariantViolation, after_prefixed_run).
Proof.
  split; [reflexivity|]. split; [reflexivity|]. split; [by vm_compute|].
  split; [by vm_compute|].
  apply resume_fails_at_stage_0; simpl; [lia..|].
  exists 0%nat. split; [apply list_elem_of_In; vm_compute; auto|].
  by vm_compute.
Qed.

(** ** [join_two_mts] *)

Lemma selected_keeps mt row_keep col_keep m :
  selected mt row_keep col_keep = Ret m →
  mt_row_key m = mt_row_key mt ∧ mt_col_key m = mt_col_key mt
  ∧ mt_entry_type m = mt_entry_type mt ∧ mt_rows m = mt_rows mt
  ∧ (∃ idxs, select_exprs (mt_row_key mt) (mt_row_value mt) row_keep = Ret idxs
             ∧ mt_row_value m = pick (mt_row_value mt) idxs)
  ∧ (∃ idxs, select_exprs (mt_col_key mt) (mt_col_value mt) col_keep = Ret idxs
             ∧ mt_col_value m = pick (mt_col_value mt) idxs).
Proof.
  unfold selected, select_rows, select_cols.
  destruct (select_exprs (mt_row_key mt) _ row_keep) as [ri| |] eqn:Hr;
    cbn [mbind outcome_bind]; [|done..].
  cbn [mt_col_key mt_col_value].
  destruct (select_exprs (mt_col_key mt) _ col_keep) as [ci| |] eqn:Hc;
    cbn [mbind outcome_bind]; [|done..].
  intros [= <-]. cbn. repeat split; eauto.
Qed.

(** C8, as stated, fails: the row schemas of [old_part] and [part_B]
    differ, and joining them succeeds. *)
Lemma join_two_mts_drops_row_fields :
  row_dtype old_part ≠ row_dtype part_B
  ∧ ∃ res, (join_two_mts 3 old_part part_B [] [] "tmp" 1 empty_dir).1 = Ret res
           ∧ mt_cols res = [[Some (VStr "A")]; [Some (VStr "B")]].
Proof.
  split; [by vm_compute|]. eexists. split; vm_compute; reflexivity.
Qed.

(** C8 (amended): [join_two_mts] compares the schemas after
    [select_rows] and [select_cols], that is the key fields and the kept
    fields of rows and columns, and the entry schema, which the
    selections leave as it is.  When the selections succeed and one of
    the three compared schemas differs, the join fails with the schema
    error and nothing is written; it goes on to the union exactly when
    the three are equal. *)
Theorem join_two_mts_schema_check (fuel : nat) (mt1 mt2 : MatrixTable)
    (row_keep col_keep : list string) (temp_dir : string) (partitions : Z)
    (σ : fs) (m1 m2 : MatrixTable) :
  selected mt1 row_keep col_keep = Ret m1 →
  selected mt2 row_keep col_keep = Ret m2 →
  let join := join_two_mts fuel mt1 mt2 row_keep col_keep temp_dir partitions σ in
  (entry_dtype m1 = entry_dtype mt1 ∧ entry_dtype m2 = entry_dtype mt2
   ∧ mt_row_key m1 = mt_row_key mt1 ∧ mt_row_key m2 = mt_row_key mt2
   ∧ mt_col_key m1 = mt_col_key mt1 ∧ mt_col_key m2 = mt_col_key mt2)
  ∧ (row_dtype m1 ≠ row_dtype m2 ∨ col_dtype m1 ≠ col_dtype m2
     ∨ entry_dtype m1 ≠ entry_dtype m2 →
     join = (Raise SchemaMismatch, σ))
  ∧ (row_dtype m1 = row_dtype m2 → col_dtype m1 = col_dtype m2 →
     entry_dtype m1 = entry_dtype m2 →
     join = multi_way_union_mts fuel [Some m1; Some m2] temp_dir 2 partitions
              false "appending_" σ)
  ∧ (∀ res, join.1 = Ret res →
            row_dtype m1 = row_dtype m2 ∧ col_dtype m1 = col_dtype m2
            ∧ entry_dtype m1 = entry_dtype m2).
Proof.
  intros H1 H2 join.
  assert (join
          = if bool_decide (row_dtype m1 ≠ row_dtype m2)
               || bool_decide (col_dtype m1 ≠ col_dtype m2)
               || bool_decide (entry_dtype m1 ≠ entry_dtype m2)
            then (Raise SchemaMismatch, σ)
            else multi_way_union_mts fuel [Some m1; Some m2] temp_dir 2
                   partitions false "appending_" σ) as Hjoin.
  { subst join. unfold join_two_mts. fold (selected mt1 row_keep col_keep).
    fold (selected mt2 row_keep col_keep). rewrite H1, H2.
    unfold mbind at 1, M_bind at 1, lift at 1.
    unfold mbind at 1, M_bind at 1, lift at 1.
    by destruct (_ || _). }
  destruct (selected_keeps _ _ _ _ H1) as (Hk1 & Hc1 & He1 & _).
  destruct (selected_keeps _ _ _ _ H2) as (Hk2 & Hc2 & He2 & _).
  split; [done|]. split; [|split].
  - intros Hdiff. rewrite Hjoin.
    destruct Hdiff as [Hd|[Hd|Hd]];
      rewrite (bool_decide_eq_true_2 _ Hd), ?orb_true_r; done.
  - intros Hr Hc He. rewrite Hjoin.
    by rewrite !bool_decide_eq_false_2 by (intros Hne; by apply Hne).
  - intros res Hres. rewrite Hjoin in Hres.
    destruct (decide (row_dtype m1 = row_dtype m2)) as [Hr|Hr];
      [|by rewrite (bool_decide_eq_true_2 _ Hr) in Hres].
    destruct (decide (col_dtype m1 = col_dtype m2)) as [Hc|Hc];
      [|by rewrite (bool_decide_eq_true_2 _ Hc), orb_true_r in Hres].
    destruct (decide (entry_dtype m1 = entry_dtype m2)) as [He|He];
      [|by rewrite (bool_decide_eq_true_2 _ He), orb_true_r in Hres].
    done.
Qed.

Lemma join_two_mts_schema_check_witness :
  join_two_mts 3 part_A float_part [] [] "tmp" 1 empty_dir
  = (Raise SchemaMismatch, empty_dir).
Proof.
  destruct (join_two_mts_schema_check 3 part_A float_part [] [] "tmp" 1
              empty_dir part_A float_part eq_refl eq_refl)
    as (_ & Hfail & _).
  apply Hfail. right. right. by vm_compute.
Defined.

(** * Part III: further properties of the code *)

(** ** More on [chunks] *)

Section more_chunks.
Context {A : Type}.
Implicit Types (items lst : list A).

Lemma chunks_from_never_full items binsize lst :
  (binsize <= Z.of_nat (length lst)
   ∨ Z.of_nat (length lst + length items) < binsize) →
  chunks_from items binsize lst
  = if decide (0 < length (lst ++ items))%nat then [lst ++ items] else [].
Proof.
  revert lst. induction items as [|x items IH]; intros lst Hb; cbn [chunks_from].
  - by rewrite app_nil_r.
  - rewrite (proj2 (Z.eqb_neq _ _)).
    + rewrite IH.
      * by rewrite <- app_assoc.
      * rewrite length_app. simpl in *. lia.
    + rewrite length_app. simpl in *. lia.
Qed.

Lemma chunks_from_fill (pre rest lst : list A) binsize :
  Z.of_nat (length (lst ++ pre)) = binsize → pre ≠ [] →
  chunks_from (pre ++ rest) binsize lst
  = (lst ++ pre) :: chunks_from rest binsize [].
Proof.
  revert lst. induction pre as [|x pre IH]; intros lst Hlen Hne; [done|].
  cbn [app chunks_from]. destruct pre as [|y pre].
  - rewrite (proj2 (Z.eqb_eq _ _)) by done. done.
  - rewrite (proj2 (Z.eqb_neq _ _)).
    + rewrite IH; [|rewrite <- Hlen; by rewrite <- app_assoc|done].
      by rewrite <- app_assoc.
    + rewrite !length_app in *. simpl in *. lia.
Qed.

Lemma chunks_step items (b : nat) :
  (0 < b <= length items)%nat →
  chunks items (Z.of_nat b) = take b items :: chunks (drop b items) (Z.of_nat b).
Proof.
  intros Hb. unfold chunks.
  rewrite <- (take_drop b items) at 1.
  rewrite (chunks_from_fill (take b items)); [done| |].
  - rewrite app_nil_l, length_take. lia.
  - intros Hnil. apply (f_equal length) in Hnil.
    rewrite length_take in Hnil. simpl in Hnil. lia.
Qed.

Lemma chunks_as_slices_nat (b : nat) : ∀ (n : nat) items,
  (0 < b)%nat → (b * (n - 1) < length items ∨ n = 0%nat)%nat →
  (length items <= b * n)%nat →
  chunks items (Z.of_nat b) = chunk_of b items <$> seq 0 n.
Proof.
  induction n as [|n IH]; intros items Hb Hlo Hhi.
  - destruct items; [done | simpl in Hhi; lia].
  - destruct (decide (length items <= b)%nat) as [Hle|Hgt].
    + assert (n = 0%nat) as -> by (destruct Hlo as [?|?]; nia).
      destruct items as [|x items]; [simpl in Hlo; lia|].
      destruct (decide (length (x :: items) = b)) as [Heq|Hne].
      * rewrite chunks_step by lia. rewrite drop_ge by lia.
        cbn [seq fmap list_fmap]. unfold chunk_of.
        rewrite Nat.mul_0_r. done.
      * unfold chunks. rewrite chunks_from_never_full by (simpl in *; lia).
        cbn [seq fmap list_fmap]. unfold chunk_of.
        rewrite Nat.mul_0_r, take_ge by (simpl in *; lia). done.
    + rewrite chunks_step by lia.
      rewrite (IH (drop b items)); [|done|rewrite length_drop; nia|rewrite length_drop; nia].
      cbn [seq fmap list_fmap]. f_equal.
      * unfold chunk_of. by rewrite Nat.mul_0_r.
      * rewrite <- seq_shift, <- list_fmap_compose. apply list_fmap_ext.
        intros _ i _. unfold chunk_of; cbn. rewrite drop_drop. f_equal. f_equal. lia.
Qed.
End more_chunks.

(** X1: with a bin size of at least 1, [chunks] yields exactly the
    slices [items[b*i : b*(i+1)]] for [i] in [range(ceil(len(items)/b))],
    the very slices the jobs of a stage take in [multi_way_union_mts];
    in particular it yields [ceil(len(items)/b)] chunks. *)
Theorem chunks_as_slices {A} (items : list A) (binsize : Z) :
  1 <= binsize →
  let n := ceil_div (Z.of_nat (length items)) binsize in
  chunks items binsize
  = (λ i : nat, slice items (binsize * Z.of_nat i) (binsize * (Z.of_nat i + 1)))
      <$> range n
  ∧ Z.of_nat (length (chunks items binsize)) = n.
Proof.
  intros Hb n.
  pose proof (ceil_div_bounds (Z.of_nat (length items)) binsize ltac:(lia)) as Hn.
  fold n in Hn.
  assert (chunks items binsize = chunk_of (Z.to_nat binsize) items <$> range n) as Hc.
  { rewrite <- (Z2Nat.id binsize) at 1 by lia. unfold range.
    apply chunks_as_slices_nat; [lia| |nia].
    destruct (decide (n <= 0)); [right; lia | left; nia]. }
  split.
  - rewrite Hc. apply list_fmap_ext. intros _ i _. by rewrite slice_chunk by lia.
  - rewrite Hc, length_fmap. unfold range. rewrite length_seq. nia.
Qed.

Lemma chunks_as_slices_witness :
  chunks [1; 2; 3; 4; 5] 2
  = (λ i : nat, slice [1; 2; 3; 4; 5] (2 * Z.of_nat i) (2 * (Z.of_nat i + 1)))
      <$> range (ceil_div 5 2)
  ∧ Z.of_nat (length (chunks [1; 2; 3; 4; 5] 2)) = ceil_div 5 2.
Proof. apply (chunks_as_slices [1; 2; 3; 4; 5] 2). lia. Defined.

(** X2: when the bin size is never reached (it is zero or negative, or
    larger than the number of items), [chunks] yields the whole input as
    one chunk, and nothing for an empty input. *)
Theorem chunks_bin_never_full {A} (items : list A) (binsize : Z) :
  binsize <= 0 ∨ Z.of_nat (length items) < binsize →
  chunks items binsize = match items with [] => [] | _ => [items] end.
Proof.
  intros Hb. unfold chunks. rewrite chunks_from_never_full by (simpl; lia).
  destruct items as [|x items]; [done|].
  destruct (decide _) as [_|Hn]; [done|]. simpl in Hn. lia.
Qed.

Lemma chunks_bin_never_full_witness :
  chunks [1; 2; 3] 0 = [[1; 2; 3]].
Proof. apply (chunks_bin_never_full [1; 2; 3] 0). lia. Defined.

(** X3: the subsets [vcf_merging] makes for [num_merges >= 2] cover the
    sorted inputs in order.  When there are at least [num_merges] inputs
    there are at least [num_merges] subsets, and exactly [num_merges]
    only if [num_merges] divides the number of inputs; with fewer inputs
    than [num_merges] the bin size is 0 and all inputs form one
    subset. *)
Theorem vcf_path_list_subsets {A} (list_paths : list A) (num_merges : Z) :
  2 <= num_merges →
  let len := Z.of_nat (length list_paths) in
  ∃ subsets,
    vcf_path_list list_paths num_merges = Ret subsets
    ∧ concat subsets = list_paths
    ∧ (num_merges <= len →
       num_merges <= Z.of_nat (length subsets)
       ∧ (Z.of_nat (length subsets) = num_merges ↔ (num_merges | len)))
    ∧ (len < num_merges →
       subsets = match list_paths with [] => [] | _ => [list_paths] end).
Proof.
  intros Hnm len. unfold vcf_path_list.
  rewrite (proj2 (Z.eqb_neq num_merges 1)) by lia.
  rewrite decide_False by lia. fold len.
  eexists. split; [done|]. split; [apply (chunks_from_concat list_paths _ [])|].
  split.
  - intros Hle.
    set (b := len / num_merges).
    assert (1 <= b) as Hb by (apply Z.div_le_lower_bound; lia).
    destruct (chunks_as_slices list_paths b Hb) as [_ Hcount].
    fold len in Hcount. rewrite Hcount.
    pose proof (ceil_div_bounds len b ltac:(lia)) as Hn.
    set (n := ceil_div len b) in *.
    pose proof (Z.mul_div_le len num_merges ltac:(lia)) as Hlow. fold b in Hlow.
    pose proof (Z.mul_succ_div_gt len num_merges ltac:(lia)) as Hupp. fold b in Hupp.
    split; [nia|]. split.
    + intros ->. exists b. nia.
    + intros [q Hq]. assert (q = b) as -> by nia. nia.
  - intros Hlt. apply chunks_bin_never_full. left.
    rewrite Z.div_small by lia. done.
Qed.

Lemma vcf_path_list_subsets_witness :
  ∃ subsets,
    vcf_path_list ["a"; "b"; "c"; "d"; "e"] 2 = Ret subsets
    ∧ concat subsets = ["a"; "b"; "c"; "d"; "e"]
    ∧ 2 <= Z.of_nat (length subsets).
Proof.
  destruct (vcf_path_list_subsets ["a"; "b"; "c"; "d"; "e"] 2 ltac:(lia))
    as (subsets & Hres & Hcat & Hmany & _).
  exists subsets. split; [exact Hres|]. split; [exact Hcat|].
  apply Hmany. simpl. lia.
Defined.

Example vcf_path_list_five_in_two :
  vcf_path_list ["a"; "b"; "c"; "d"; "e"] 2 = Ret [["a"; "b"]; ["c"; "d"]; ["e"]].
Proof. reflexivity. Qed.

(** ** Edge inputs of [multi_way_union_mts] *)

Section edges.
Variables (temp_dir : string) (min_partitions : Z) (prefix : string).

Lemma chunk_of_one {A} (l : list A) i x :
  l !! i = Some x → chunk_of 1 l i = [x].
Proof.
  intros Hi. unfold chunk_of. rewrite Nat.mul_1_l.
  rewrite (drop_S l x i Hi). done.
Qed.

Lemma merge_job_chunk_1 stage ts i t σ :
  ts !! i = Some t →
  ∃ σ',
    merge_job temp_dir 1 min_partitions prefix stage (Localized <$> ts) i σ
    = (Ret (Localized (union_table (sig_of t) [t])), σ').
Proof.
  intros Hi. unfold merge_job.
  rewrite slice_chunk by lia. change (Z.to_nat 1) with 1%nat.
  rewrite chunk_of_fmap, (chunk_of_one ts i t Hi).
  destruct (zip_join_flatten (sig_of t) (tb_row_value t) [t]) as (z & Hz & Hflat);
    [done | by repeat constructor |].
  rewrite Hz. unfold mbind, M_bind, lift. rewrite <- Hflat.
  destruct (10 <? min_partitions); eexists; reflexivity.
Qed.

Lemma run_jobs_chunk_1 stage ts (idxs : list nat) σ :
  Forall (λ i, i < length ts)%nat idxs →
  ∃ ts' σ',
    mapM (merge_job temp_dir 1 min_partitions prefix stage (Localized <$> ts))
      idxs σ
    = (Ret (Localized <$> ts'), σ')
    ∧ length ts' = length idxs.
Proof.
  intros Hidx. revert σ. induction Hidx as [|i idxs Hi _ IH]; intros σ.
  - by exists [], σ.
  - destruct (lookup_lt_is_Some_2 ts i Hi) as [t Ht].
    destruct (merge_job_chunk_1 stage ts i t σ Ht) as [σ1 H1].
    destruct (IH σ1) as (ts' & σ2 & H2 & Hlen).
    exists (union_table (sig_of t) [t] :: ts'), σ2. split; [|simpl; lia].
    rewrite mapM_cons. unfold mbind, M_bind at 1. rewrite H1.
    unfold M_bind at 1. rewrite H2. done.
Qed.

Lemma stage_body_chunk_1 stage ts σ :
  ∃ ts' σ',
    stage_body temp_dir 1 min_partitions false prefix stage (Localized <$> ts) σ
    = (Ret (Localized <$> ts'), σ')
    ∧ length ts' = length ts.
Proof.
  unfold stage_body, n_jobs_of. rewrite decide_False by lia.
  rewrite length_fmap. unfold mbind at 1, M_bind, lift.
  unfold run_jobs, range, ceil_div.
  replace (Z.to_nat (- (- Z.of_nat (length ts) / 1))) with (length ts)
    by (rewrite Z.div_1_r; lia).
  destruct (run_jobs_chunk_1 stage ts (seq 0 (length ts)) σ)
    as (ts' & σ1 & H1 & Hlen').
  { apply Forall_forall. intros i Hi. apply elem_of_seq in Hi. lia. }
  rewrite length_seq in Hlen'. by exists ts', σ1.
Qed.

Lemma stages_chunk_1 fuel : ∀ stage ts σ,
  (2 <= length ts)%nat →
  ∃ σ',
    stages temp_dir 1 min_partitions false prefix fuel stage (Localized <$> ts) σ
    = (OutOfFuel, σ').
Proof.
  induction fuel as [|fuel IH]; intros stage ts σ Hlen; cbn [stages];
    rewrite decide_True by (rewrite length_fmap; lia).
  - by exists σ.
  - destruct (stage_body_chunk_1 stage ts σ) as (ts' & σ1 & H1 & Hlen').
    destruct (IH (S stage) ts' σ1 ltac:(lia)) as [σ2 H2].
    exists σ2. unfold mbind, M_bind. rewrite H1. exact H2.
Qed.
End edges.

(** X4: with [chunk_size = 1] every job unions a single table, a stage
    leaves as many tables as it found, and the loop of a fresh run over
    two or more inputs never ends: whatever number of stages is allowed,
    the run is still in the loop. *)
Theorem chunk_size_1_never_ends (fuel : nat) (mts : list MatrixTable)
    (temp_dir : string) (min_partitions : Z) (prefix : string) (σ : fs) :
  (2 <= length mts)%nat →
  (multi_way_union_mts fuel (Some <$> mts) temp_dir 1 min_partitions false
     prefix σ).1
  = OutOfFuel.
Proof.
  intros Hlen. unfold multi_way_union_mts.
  rewrite initial_staging_fresh.
  unfold mbind at 1, M_bind at 1, lift at 1.
  rewrite <- list_fmap_compose.
  destruct (stages_chunk_1 temp_dir min_partitions prefix fuel 0
              (localize_entries <$> mts) σ) as [σ' H'].
  { by rewrite length_fmap. }
  rewrite list_fmap_compose. unfold mbind, M_bind. by rewrite H'.
Qed.

Lemma chunk_size_1_never_ends_witness :
  (multi_way_union_mts 5 (Some <$> [part_A; part_B]) "tmp" 1 1 false "" empty_dir).1
  = OutOfFuel.
Proof. apply chunk_size_1_never_ends. simpl. lia. Defined.

Lemma initial_staging_length (check_from_disk : bool)
    (mts : list (option MatrixTable)) :
  (check_from_disk = false → Forall is_Some mts) →
  ∃ staging, initial_staging check_from_disk mts = Ret staging
             ∧ length staging = length mts.
Proof.
  intros Hsome. unfold initial_staging. destruct check_from_disk.
  - eexists. split; [done|]. by rewrite length_fmap.
  - specialize (Hsome eq_refl). induction Hsome as [|x mts [m ->] _ IH].
    + by exists [].
    + destruct IH as (staging & Hst & Hlen).
      exists (Localized (localize_entries m) :: staging).
      rewrite mapM_cons, Hst. split; [done|]. simpl. lia.
Qed.

Lemma stage_body_negative_chunk (temp_dir : string)
    (chunk_size min_partitions : Z) (check_from_disk : bool) (prefix : string)
    (stage : nat) (staging : list staged) (σ : fs) :
  chunk_size < 0 →
  stage_body temp_dir chunk_size min_partitions check_from_disk prefix stage
    staging σ
  = (Ret [], σ).
Proof.
  intros Hcs.
  assert (range (ceil_div (Z.of_nat (length staging)) chunk_size) = []) as Hr.
  { unfold range, ceil_div.
    assert (0 <= - Z.of_nat (length staging) / chunk_size).
    { rewrite <- Z.div_opp_opp by lia. apply Z.div_pos; lia. }
    replace (Z.to_nat _) with 0%nat by lia. done. }
  unfold stage_body, n_jobs_of. rewrite decide_False by lia.
  unfold mbind at 1, M_bind at 1, lift at 1. unfold run_jobs. rewrite Hr.
  by destruct check_from_disk.
Qed.

(** X5: a chunk size that is not positive.  For two or more inputs,
    [chunk_size = 0] stops the run with [ZeroDivisionError] at line 30;
    a negative chunk size gives a job count that is not positive, so
    the first stage leaves [staging] empty and line 101 raises
    [IndexError].  In both cases nothing is written. *)
Theorem chunk_size_not_positive (fuel : nat) (mts : list (option MatrixTable))
    (temp_dir : string) (chunk_size min_partitions : Z)
    (check_from_disk : bool) (prefix : string) (σ : fs) :
  (check_from_disk = false → Forall is_Some mts) →
  (2 <= length mts)%nat → (0 < fuel)%nat → chunk_size <= 0 →
  multi_way_union_mts fuel mts temp_dir chunk_size min_partitions
    check_from_disk prefix σ
  = (Raise (if decide (chunk_size = 0) then ZeroDivisionError else IndexError),
     σ).
Proof.
  intros Hsome Hlen Hfuel Hcs.
  destruct (initial_staging_length check_from_disk mts Hsome)
    as (staging & Hst & Hlen').
  unfold multi_way_union_mts. rewrite Hst.
  unfold mbind at 1, M_bind at 1, lift at 1.
  destruct fuel as [|fuel]; [lia|].
  cbn [stages]. rewrite decide_True by lia.
  destruct (decide (chunk_size = 0)) as [->|Hne].
  - reflexivity.
  - assert (stages temp_dir chunk_size min_partitions check_from_disk prefix
              fuel 1 [] σ = (Ret [], σ)) as Hnext.
    { destruct fuel; cbn [stages]; by rewrite decide_False by (simpl; lia). }
    unfold mbind, M_bind.
    rewrite stage_body_negative_chunk by lia. rewrite Hnext.
    done.
Qed.

Lemma chunk_size_not_positive_witness :
  multi_way_union_mts 3 [Some part_A; Some part_B] "tmp" (-2) 1 false "" empty_dir
  = (Raise IndexError, empty_dir).
Proof.
  apply (chunk_size_not_positive 3 [Some part_A; Some part_B] "tmp" (-2) 1
           false "" empty_dir); [|simpl; lia|lia|lia].
  intros _. repeat constructor; by eexists.
Defined.

(** X6: no input at all gives [IndexError] at line 101, and on a fresh
    run a [None] among the inputs gives [AttributeError] at line 25; in
    both cases before any stage runs and with nothing written. *)
Theorem no_input_or_none_input (fuel : nat) (temp_dir : string)
    (chunk_size min_partitions : Z) (prefix : string) (σ : fs) :
  (∀ check_from_disk,
     multi_way_union_mts fuel [] temp_dir chunk_size min_partitions
       check_from_disk prefix σ
     = (Raise IndexError, σ))
  ∧ (∀ mts, None ∈ mts →
       multi_way_union_mts fuel mts temp_dir chunk_size min_partitions false
         prefix σ
       = (Raise AttributeError, σ)).
Proof.
  split.
  - intros cfd. unfold multi_way_union_mts, initial_staging.
    destruct cfd; cbn; by destruct fuel.
  - intros mts Hnone. unfold multi_way_union_mts.
    assert (initial_staging false mts = Raise AttributeError) as ->; [|done].
    unfold initial_staging. induction mts as [|x mts IH]; [by apply elem_of_nil in Hnone|].
    rewrite mapM_cons. destruct x as [m|]; [|done].
    apply elem_of_cons in Hnone as [?|Hnone]; [done|].
    cbn [mbind outcome_bind]. by rewrite (IH Hnone).
Qed.

Lemma no_input_or_none_input_witness :
  multi_way_union_mts 3 [Some part_A; None] "tmp" 2 1 false "" empty_dir
  = (Raise AttributeError, empty_dir).
Proof.
  apply (proj2 (no_input_or_none_input 3 "tmp" 2 1 "" empty_dir)).
  right. left.
Defined.

Lemma stages_single (temp_dir : string) (chunk_size min_partitions : Z)
    (check_from_disk : bool) (prefix : string) (fuel stage : nat)
    (x : staged) (σ : fs) :
  stages temp_dir chunk_size min_partitions check_from_disk prefix fuel stage
    [x] σ
  = (Ret [x], σ).
Proof. destruct fuel; cbn [stages]; by rewrite decide_False by (simpl; lia). Qed.

(** X7: a single input on a fresh run: no stage runs and nothing is
    written; the result is the input itself with its missing entries
    unfiltered, whatever the chunk size and the number of stages
    allowed. *)
Theorem single_input_fresh (fuel : nat) (mt : MatrixTable) (temp_dir : string)
    (chunk_size min_partitions : Z) (prefix : string) (σ : fs) :
  mt_aligned mt →
  multi_way_union_mts fuel [Some mt] temp_dir chunk_size min_partitions false
    prefix σ
  = (Ret (unfilter_entries mt), σ).
Proof.
  intros Hal. unfold multi_way_union_mts.
  change [Some mt] with (Some <$> [mt]). rewrite initial_staging_fresh.
  cbn [fmap list_fmap]. unfold mbind, M_bind, lift. rewrite stages_single.
  f_equal. unfold finish. cbn [as_table mbind outcome_bind].
  rewrite (unlocalize_entries_ok _ (mt_col_key mt) (mt_col_value mt));
    [|done|done].
  by destruct mt.
Qed.

Lemma single_input_fresh_witness :
  multi_way_union_mts 0 [Some part_A] "tmp" 2 1 false "" empty_dir
  = (Ret (unfilter_entries part_A), empty_dir).
Proof.
  apply (single_input_fresh 0 part_A "tmp" 2 1 "" empty_dir).
  apply single_column_aligned.
Defined.

(** X8: a single input with [check_from_disk] set: no stage runs, so
    no checkpoint is looked at; [staging] holds the caller's
    MatrixTable, not a localized Table, and line 102 fails with
    [AttributeError]. *)
Theorem single_input_resume (fuel : nat) (mt : MatrixTable) (temp_dir : string)
    (chunk_size min_partitions : Z) (prefix : string) (σ : fs) :
  multi_way_union_mts fuel [Some mt] temp_dir chunk_size min_partitions true
    prefix σ
  = (Raise AttributeError, σ).
Proof.
  unfold multi_way_union_mts, initial_staging.
  cbn [fmap list_fmap]. unfold mbind, M_bind, lift. by rewrite stages_single.
Qed.


(** ** Resuming from complete checkpoints *)

Section resume_complete.
Variables (temp_dir : string).

Lemma all_exists_complete stage idxs σ :
  Forall (λ j, is_Some (disk σ !! resume_path temp_dir stage j)) idxs →
  all_exists temp_dir stage idxs σ = (Ret true, σ).
Proof.
  induction 1 as [|j idxs Hj _ IH]; [done|].
  cbn [all_exists]. unfold mbind, M_bind, hadoop_is_file_SUCCESS.
  by rewrite bool_decide_eq_true_2.
Qed.

Lemma read_stage_complete stage (tables : list Table) σ : ∀ k,
  (∀ j t, tables !! j = Some t →
          disk σ !! resume_path temp_dir stage (k + j) = Some t) →
  mapM (λ idx, read_table (resume_path temp_dir stage idx))
    (seq k (length tables)) σ
  = (Ret (Localized <$> tables), σ).
Proof.
  induction tables as [|t tables IH]; intros k Hdisk; [done|].
  cbn [length seq]. rewrite mapM_cons.
  unfold mbind at 1, M_bind at 1, read_table at 1.
  specialize (Hdisk 0%nat t eq_refl) as H0. rewrite Nat.add_0_r in H0.
  rewrite H0. unfold mbind at 1, M_bind at 1.
  rewrite (IH (S k)); [done|].
  intros j t' Hj. replace (S k + j)%nat with (k + S j)%nat by lia.
  by apply Hdisk.
Qed.
End resume_complete.

Lemma stage_body_reads_stage (temp_dir : string)
    (chunk_size min_partitions : Z) (prefix : string) (stage : nat)
    (staging : list staged) (σ : fs) (tables : list Table) :
  chunk_size ≠ 0 →
  length tables
  = Z.to_nat (ceil_div (Z.of_nat (length staging)) chunk_size) →
  (∀ j t, tables !! j = Some t →
          disk σ !! resume_path temp_dir stage j = Some t) →
  stage_body temp_dir chunk_size min_partitions true prefix stage staging σ
  = (Ret (Localized <$> tables), σ).
Proof.
  intros Hcs Hlen Hdisk. unfold stage_body, n_jobs_of.
  rewrite decide_False by done. unfold mbind at 1, M_bind at 1, lift at 1.
  unfold range. rewrite <- Hlen.
  unfold mbind at 1, M_bind at 1. rewrite all_exists_complete.
  - by apply read_stage_complete.
  - apply Forall_forall. intros j Hj. apply elem_of_seq in Hj.
    destruct (lookup_lt_is_Some_2 tables j ltac:(lia)) as [t Ht].
    exists t. by apply Hdisk.
Qed.

(** X9: with [check_from_disk] set, a stage all of whose jobs have a
    checkpoint with its marker is not computed: the new [staging] is the
    list of the stored tables in job order, the directory is left as it
    is, and of the old [staging] only the length is used. *)
Theorem resume_reads_complete_stage (temp_dir : string)
    (chunk_size min_partitions : Z) (prefix : string) (stage : nat)
    (staging : list staged) (σ : fs) (tables : list Table) :
  chunk_size ≠ 0 →
  length tables
  = Z.to_nat (ceil_div (Z.of_nat (length staging)) chunk_size) →
  (∀ j t, tables !! j = Some t →
          disk σ !! resume_path temp_dir stage j = Some t) →
  stage_body temp_dir chunk_size min_partitions true prefix stage staging σ
  = (Ret (Localized <$> tables), σ).
Proof. apply stage_body_reads_stage. Qed.

Lemma resume_reads_complete_stage_witness :
  stage_body "tmp" 2 1 true "" 1
    [Unlocalized None; Unlocalized None] partial_stage_1
  = (Ret [Localized table_A], partial_stage_1).
Proof.
  apply (resume_reads_complete_stage "tmp" 2 1 "" 1
           [Unlocalized None; Unlocalized None] partial_stage_1 [table_A]);
    [lia | reflexivity |].
  intros [|j] t Ht; [|by destruct j]. by injection Ht as <-.
Defined.

(** ** Checkpoint paths *)

Section paths.

Lemma string_app_cons c (s t : string) : String c s +:+ t = String c (s +:+ t).
Proof. done. Qed.

Lemma string_app_assoc (s t u : string) : (s +:+ t) +:+ u = s +:+ (t +:+ u).
Proof.
  induction s as [|c s IH]; [done|].
  by rewrite !string_app_cons, IH.
Qed.

Lemma pretty_N_char_digit x : is_digit (pretty_N_char x) = true.
Proof. unfold pretty_N_char. by repeat case_match. Qed.

Lemma pretty_N_go_digits x : ∀ s,
  all_digits s = true → all_digits (pretty_N_go x s) = true.
Proof.
  induction (N.lt_wf_0 x) as [x _ IH]; intros s Hs.
  destruct (decide (x = 0%N)) as [->|Hx]; [by rewrite pretty_N_go_0|].
  rewrite pretty_N_go_step by lia. apply IH.
  - apply N.div_lt; lia.
  - cbn [all_digits]. by rewrite pretty_N_char_digit, Hs.
Qed.

Lemma str_digits (n : nat) : all_digits (str n) = true.
Proof.
  unfold str, pretty, pretty_nat, pretty, pretty_N.
  case_decide; [done|]. by apply pretty_N_go_digits.
Qed.

(** A string of digits followed by a character that is no digit is
    read back in one way only. *)
Lemma digits_then_char (d1 d2 : string) (c1 c2 : ascii) (r1 r2 : string) :
  all_digits d1 = true → all_digits d2 = true →
  is_digit c1 = false → is_digit c2 = false →
  d1 +:+ String c1 r1 = d2 +:+ String c2 r2 →
  d1 = d2 ∧ c1 = c2 ∧ r1 = r2.
Proof.
  revert d2. induction d1 as [|a d1 IH]; intros [|b d2] H1 H2 Hc1 Hc2 Heq.
  - by injection Heq as -> ->.
  - rewrite string_app_cons in Heq. injection Heq as -> _.
    cbn [all_digits] in H2. apply andb_true_iff in H2 as [H2 _]. congruence.
  - rewrite string_app_cons in Heq. injection Heq as -> _.
    cbn [all_digits] in H1. apply andb_true_iff in H1 as [H1 _]. congruence.
  - rewrite !string_app_cons in Heq. injection Heq as -> Heq.
    cbn [all_digits] in H1, H2.
    apply andb_true_iff in H1 as [_ H1]. apply andb_true_iff in H2 as [_ H2].
    destruct (IH d2 H1 H2 Hc1 Hc2 Heq) as (-> & -> & ->). done.
Qed.

(** The file name of a job, and of its [_pre] table. *)
Lemma job_names_differ (stage i stage' i' : nat) :
  "stage_" +:+ str stage +:+ "_job_" +:+ str i +:+ ".ht"
  = "stage_" +:+ str stage' +:+ "_job_" +:+ str i' +:+ ".ht" →
  stage = stage' ∧ i = i'.
Proof.
  intros Heq. apply (inj (String.app "stage_")) in Heq.
  change ("_job_" +:+ ?x) with (String "_" ("job_" +:+ x)) in Heq.
  apply digits_then_char in Heq as (Hs & _ & Heq);
    [|apply str_digits..|done|done].
  apply (inj (String.app "job_")) in Heq.
  change (".ht") with (String "." "ht") in Heq.
  apply digits_then_char in Heq as (Hi & _ & _);
    [|apply str_digits..|done|done].
  split; by apply (inj pretty).
Qed.

Lemma job_name_not_pre (stage i stage' i' : nat) :
  "stage_" +:+ str stage +:+ "_job_" +:+ str i +:+ ".ht"
  ≠ "stage_" +:+ str stage' +:+ "_job_" +:+ str i' +:+ "_pre.ht".
Proof.
  intros Heq. apply (inj (String.app "stage_")) in Heq.
  change ("_job_" +:+ ?x) with (String "_" ("job_" +:+ x)) in Heq.
  apply digits_then_char in Heq as (_ & _ & Heq);
    [|apply str_digits..|done|done].
  apply (inj (String.app "job_")) in Heq.
  change (".ht") with (String "." "ht") in Heq.
  change ("_pre.ht") with (String "_" "pre.ht") in Heq.
  apply digits_then_char in Heq as (_ & Hc & _);
    [|apply str_digits..|done|done].
  discriminate.
Qed.

Lemma path_join_relative (a : string) (c : ascii) (b : string) :
  c ≠ "/"%char →
  path_join a (String c b)
  = if decide (a = "") then String c b
    else if ends_with_slash a then a +:+ String c b
         else a +:+ "/" +:+ String c b.
Proof.
  intros Hc. unfold path_join.
  destruct c as [[] [] [] [] [] [] [] []]; done.
Qed.

(** For a directory and a prefix, [os.path.join] puts one fixed string
    before the file name. *)
Lemma path_join_file_name (temp_dir prefix : string) :
  ∃ P, ∀ name, path_join temp_dir (prefix +:+ String "s" name)
               = P +:+ String "s" name.
Proof.
  destruct prefix as [|c prefix].
  - exists (if decide (temp_dir = "") then ""
            else if ends_with_slash temp_dir then temp_dir
                 else temp_dir +:+ "/").
    intros name. change ("" +:+ ?x) with x.
    rewrite path_join_relative by done.
    destruct (decide (temp_dir = "")); [done|].
    destruct (ends_with_slash temp_dir); [done|].
    by rewrite string_app_assoc.
  - destruct (decide (c = "/"%char)) as [->|Hc].
    + exists (String "/" prefix). done.
    + exists (if decide (temp_dir = "") then String c prefix
              else if ends_with_slash temp_dir then temp_dir +:+ String c prefix
                   else temp_dir +:+ "/" +:+ String c prefix).
      intros name. rewrite string_app_cons, path_join_relative by done.
      destruct (decide (temp_dir = "")); [done|].
      destruct (ends_with_slash temp_dir);
        by rewrite ?string_app_assoc, ?string_app_cons.
Qed.
End paths.

Lemma job_path_ne_pre (temp_dir prefix : string) (stage i stage' i' : nat) :
  job_path temp_dir prefix stage i ≠ job_pre_path temp_dir prefix stage' i'.
Proof.
  destruct (path_join_file_name temp_dir prefix) as [P HP].
  unfold job_path, job_pre_path.
  change ("stage_" +:+ ?x) with (String "s" ("tage_" +:+ x)).
  rewrite !HP. intros Heq. apply (inj (String.app P)) in Heq.
  by apply job_name_not_pre in Heq.
Qed.

(** X10: for one directory and one prefix, different (stage, job) pairs
    have different checkpoint paths, and no checkpoint path is the path
    of a [_pre] table: a job never overwrites the checkpoint of another
    job. *)
Theorem job_path_injective (temp_dir prefix : string)
    (stage i stage' i' : nat) :
  (job_path temp_dir prefix stage i = job_path temp_dir prefix stage' i' →
   stage = stage' ∧ i = i')
  ∧ job_path temp_dir prefix stage i ≠ job_pre_path temp_dir prefix stage' i'.
Proof.
  destruct (path_join_file_name temp_dir prefix) as [P HP].
  unfold job_path, job_pre_path.
  change ("stage_" +:+ ?x) with (String "s" ("tage_" +:+ x)).
  rewrite !HP. split.
  - intros Heq. apply (inj (String.app P)) in Heq.
    by apply job_names_differ.
  - intros Heq. apply (inj (String.app P)) in Heq.
    by apply job_name_not_pre in Heq.
Qed.

Lemma job_path_injective_witness : (1 = 1 ∧ 2 = 2)%nat.
Proof. exact (proj1 (job_path_injective "tmp" "p_" 1 2 1 2) eq_refl). Defined.

(** ** A fresh run, then a resumed run *)

Section fresh_then_resume.
Variables (temp_dir : string) (chunk_size : Z) (min_partitions : Z)
          (g : signature).
Hypothesis chunk_size_ge_2 : 2 <= chunk_size.

Let c := Z.to_nat chunk_size.
Let rp := resume_path temp_dir.

Let kc := keeps_checkpoints temp_dir.

Lemma merge_job_disk stage ts rv i σ :
  Forall (λ t, sig_of t = g ∧ tb_row_value t = rv) ts →
  (c * i < length ts)%nat →
  let T := union_table g (chunk_of c ts i) in
  ∃ σ',
    merge_job temp_dir chunk_size min_partitions "" stage (Localized <$> ts) i σ
    = (Ret (Localized T), σ')
    ∧ disk σ' !! rp stage i = Some T
    ∧ kc σ σ'.
Proof.
  intros Hts Hi T. unfold merge_job.
  rewrite slice_chunk by lia. fold c. rewrite chunk_of_fmap.
  destruct (zip_join_flatten g rv (chunk_of c ts i)) as (z & Hz & Hflat).
  { apply chunk_of_nonempty; [unfold c; lia | done]. }
  { apply Forall_forall. intros t Ht. rewrite Forall_forall in Hts.
    by eapply Hts, chunk_of_subset. }
  rewrite Hz. unfold mbind, M_bind, lift. subst T. rewrite <- Hflat.
  rewrite resume_path_empty_prefix. fold (rp stage i).
  unfold kc, keeps_checkpoints.
  destruct (10 <? min_partitions); eexists; (split; [reflexivity|]); cbn [disk].
  - split; [apply lookup_insert_eq|].
    intros s j [t Ht]. fold (rp s j) in *.
    destruct (decide (rp stage i = rp s j)) as [<-|Hne].
    + rewrite lookup_insert_eq. by eexists.
    + rewrite lookup_insert_ne by done.
      rewrite lookup_delete_ne; [by eexists|].
      intros Heq. unfold rp in Heq. rewrite <- resume_path_empty_prefix in Heq.
      symmetry in Heq. by apply job_path_ne_pre in Heq.
  - split; [apply lookup_insert_eq|].
    intros s j [t Ht]. fold (rp s j) in *.
    destruct (decide (rp stage i = rp s j)) as [<-|Hne].
    + rewrite lookup_insert_eq. by eexists.
    + rewrite lookup_insert_ne by done. by eexists.
Qed.

Lemma run_jobs_disk stage ts rv (idxs : list nat) :
  Forall (λ t, sig_of t = g ∧ tb_row_value t = rv) ts →
  Forall (λ i, c * i < length ts)%nat idxs →
  ∀ σ, ∃ σ',
    mapM (merge_job temp_dir chunk_size min_partitions "" stage
            (Localized <$> ts)) idxs σ
    = (Ret (Localized <$> (union_table g <$> (chunk_of c ts <$> idxs))), σ')
    ∧ kc σ σ'
    ∧ Forall (λ i, is_Some (disk σ' !! rp stage i)) idxs
    ∧ (∀ i, idxs = [i] →
            disk σ' !! rp stage i = Some (union_table g (chunk_of c ts i))).
Proof.
  intros Hts Hidx. induction Hidx as [|i idxs Hi _ IH]; intros σ.
  - exists σ. split; [done|]. split; [by intros ???|]. split; [done|]. done.
  - destruct (merge_job_disk stage ts rv i σ Hts Hi) as (σ1 & H1 & Hd1 & Hk1).
    destruct (IH σ1) as (σ2 & H2 & Hk2 & Hex2 & _).
    exists σ2. split; [|split; [|split]].
    + rewrite mapM_cons. unfold mbind, M_bind at 1. rewrite H1.
      unfold M_bind at 1. rewrite H2. done.
    + intros s j Hsj. by apply Hk2, Hk1.
    + constructor; [|done]. apply Hk2. by eexists.
    + intros i' [= -> ->].
      assert (σ2 = σ1) as ->; [|done].
      assert (∀ (f : nat → M staged) σ0, mapM f [] σ0 = (Ret [], σ0)) as Hnil
        by done.
      rewrite Hnil in H2. by injection H2.
Qed.

Lemma stage_body_disk stage ts rv σ :
  Forall (λ t, sig_of t = g ∧ tb_row_value t = rv) ts →
  (2 <= length ts)%nat →
  let n := Z.to_nat (ceil_div (Z.of_nat (length ts)) chunk_size) in
  let ts' := union_table g <$> (chunk_of c ts <$> seq 0 n) in
  ∃ σ',
    stage_body temp_dir chunk_size min_partitions false "" stage
      (Localized <$> ts) σ
    = (Ret (Localized <$> ts'), σ')
    ∧ kc σ σ'
    ∧ (∀ j, (j < n)%nat → is_Some (disk σ' !! rp stage j))
    ∧ (n = 1%nat → ∃ T, ts' = [T] ∧ disk σ' !! rp stage 0 = Some T).
Proof.
  intros Hts Hlen n ts'. unfold stage_body, n_jobs_of.
  rewrite decide_False by lia. rewrite length_fmap.
  unfold mbind at 1, M_bind, lift. unfold run_jobs, range. fold n.
  destruct (n_jobs_bounds chunk_size chunk_size_ge_2 (length ts) Hlen)
    as (Hn & _ & Hlast). fold n in Hn, Hlast. fold c in Hlast.
  destruct (run_jobs_disk stage ts rv (seq 0 n) Hts) with (σ := σ)
    as (σ' & Hrun & Hk & Hex & Hone).
  { apply Forall_forall. intros i Hi. apply elem_of_seq in Hi. nia. }
  exists σ'. split; [done|]. split; [done|]. split.
  - intros j Hj. rewrite Forall_forall in Hex. apply Hex, elem_of_seq. lia.
  - intros H1. subst ts'. rewrite H1. cbn [seq fmap list_fmap].
    eexists. split; [done|]. apply Hone. by rewrite H1.
Qed.

Lemma stored_tables (σ : fs) stage (n : nat) :
  (∀ j, (j < n)%nat → is_Some (disk σ !! rp stage j)) →
  ∃ tables, length tables = n
            ∧ ∀ j t, tables !! j = Some t → disk σ !! rp stage j = Some t.
Proof.
  induction n as [|n IH]; intros Hex.
  - exists []. split; [done|]. by intros [|?] ?.
  - destruct IH as (tables & Hlen & Htab); [intros j Hj; apply Hex; lia|].
    destruct (Hex n ltac:(lia)) as [t Ht].
    exists (tables ++ [t]). split; [rewrite length_app; simpl; lia|].
    intros j t' Hj. apply lookup_app_Some in Hj as [Hj|[Hge Hj]]; [by apply Htab|].
    rewrite Hlen in Hge, Hj. apply list_lookup_singleton_Some in Hj as [Hj <-].
    by replace j with n by lia.
Qed.

(** After the loop of a fresh run the loop of a resumed run, started in
    the directory the fresh run left, with any [staging] of the same
    length, ends with the same table and leaves the directory as it
    is. *)
Lemma stages_fresh_resumable fuel : ∀ ts rv stage σ,
  ts ≠ [] → Forall (λ t, sig_of t = g ∧ tb_row_value t = rv) ts →
  (length ts <= fuel)%nat →
  ∃ t σ',
    stages temp_dir chunk_size min_partitions false "" fuel stage
      (Localized <$> ts) σ
    = (Ret [Localized t], σ')
    ∧ kc σ σ'
    ∧ ((2 <= length ts)%nat →
       ∀ staging', length staging' = length ts →
         stages temp_dir chunk_size min_partitions true "" fuel stage
           staging' σ'
         = (Ret [Localized t], σ')).
Proof.
  induction fuel as [|fuel IH]; intros ts rv stage σ Hne Hts Hfuel.
  - destruct ts as [|t [|??]]; [done| |simpl in Hfuel; lia].
    exists t, σ. split; [done|]. split; [by intros ???|]. simpl; lia.
  - destruct ts as [|t0 [|t1 ts0]] eqn:Heq; [done| |].
    { exists t0, σ. split; [done|]. split; [by intros ???|]. simpl; lia. }
    rewrite <- Heq in *.
    assert (2 <= length ts)%nat as Hlen by (subst; simpl; lia).
    destruct (stage_body_disk stage ts rv σ Hts Hlen)
      as (σm & Hbody & Hkm & Hexm & Honem).
    destruct (n_jobs_bounds chunk_size chunk_size_ge_2 (length ts) Hlen)
      as (Hn & _ & _).
    set (n := Z.to_nat (ceil_div (Z.of_nat (length ts)) chunk_size)) in *.
    set (ts' := union_table g <$> (chunk_of c ts <$> seq 0 n)) in *.
    assert (length ts' = n) as Hlen'
      by (subst ts'; by rewrite !length_fmap, length_seq).
    destruct (IH ts' [] (S stage) σm) as (t & σ' & Hrun & Hk & Hres).
    { intros Hnil. rewrite Hnil in Hlen'. simpl in Hlen'. lia. }
    { apply Forall_forall. intros x Hx.
      apply list_elem_of_fmap in Hx as (cs & -> & _). by destruct g as [[??]?]. }
    { lia. }
    exists t, σ'. split; [|split].
    + cbn [stages]. rewrite decide_True by (rewrite length_fmap; lia).
      unfold mbind, M_bind. by rewrite Hbody.
    + intros s j Hsj. by apply Hk, Hkm.
    + intros _ staging' Hst.
      cbn [stages]. rewrite decide_True by lia.
      destruct (stored_tables σ' stage n) as (tables & Htl & Htab).
      { intros j Hj. by apply Hk, Hexm. }
      unfold mbind, M_bind.
      rewrite (stage_body_reads_stage temp_dir chunk_size min_partitions ""
                 stage staging' σ' tables); [|lia|by rewrite Htl, Hst|done].
      destruct (decide (n = 1%nat)) as [H1|H1].
      * destruct (Honem H1) as (T & HT & HdT).
        rewrite HT in Hrun. cbn [fmap list_fmap] in Hrun.
        rewrite stages_single in Hrun. injection Hrun as <- <-.
        destruct tables as [|t1' [|??]]; [simpl in Htl; lia| |simpl in Htl; lia].
        specialize (Htab 0%nat t1' eq_refl). fold (rp stage 0) in HdT.
        rewrite HdT in Htab. injection Htab as <-.
        cbn [fmap list_fmap]. apply stages_single.
      * apply Hres; [lia|]. rewrite length_fmap. lia.
Qed.
End fresh_then_resume.

Lemma multi_way_union_mts_unfold (check_from_disk : bool) (fuel : nat)
    (mts : list (option MatrixTable)) (temp_dir : string)
    (chunk_size min_partitions : Z) (prefix : string)
    (staging st : list staged) (σ σ1 : fs) :
  initial_staging check_from_disk mts = Ret staging →
  stages temp_dir chunk_size min_partitions check_from_disk prefix fuel 0
    staging σ
  = (Ret st, σ1) →
  multi_way_union_mts fuel mts temp_dir chunk_size min_partitions
    check_from_disk prefix σ
  = (finish mts st, σ1).
Proof.
  intros Hinit Hrun. unfold multi_way_union_mts. rewrite Hinit.
  unfold mbind at 1, M_bind at 1, lift at 1.
  unfold mbind at 1, M_bind at 1. by rewrite Hrun.
Qed.

(** X11: resuming after a complete run.  Take a fresh run with an empty
    prefix over two or more compatible inputs.  A run with
    [check_from_disk] set, started in the directory the fresh run left,
    with the same first input and any objects (such as [None]) in place
    of the others, returns the same MatrixTable; it reads the
    checkpoints of every stage and writes nothing. *)
Theorem resume_after_fresh_run (fuel : nat) (h : MatrixTable)
    (rest : list MatrixTable) (others : list (option MatrixTable))
    (temp_dir : string) (chunk_size min_partitions : Z) (σ : fs) :
  let mts := h :: rest in
  2 <= chunk_size → compatible mts → Forall mt_aligned mts →
  rest ≠ [] → (length mts <= fuel)%nat → length others = length rest →
  ∃ res σ1,
    multi_way_union_mts fuel (Some <$> mts) temp_dir chunk_size min_partitions
      false "" σ
    = (Ret res, σ1)
    ∧ multi_way_union_mts fuel (Some h :: others) temp_dir chunk_size
        min_partitions true "" σ1
      = (Ret res, σ1).
Proof.
  intros mts Hcs Hcompat Hal Hrest Hfuel Hothers.
  destruct (multi_way_union_mts_fresh temp_dir chunk_size min_partitions ""
              Hcs fuel h rest σ Hcompat Hal Hfuel) as [σ' Hfresh].
  set (g := sig_of (localize_entries h)).
  set (ts := localize_entries <$> mts).
  assert (Forall (λ t, sig_of t = g ∧ tb_row_value t = mt_row_value h) ts) as Hts.
  { apply Forall_forall. intros t Ht.
    apply list_elem_of_fmap in Ht as (m & -> & Hm).
    assert (mt_schema m = mt_schema h) as Hs
      by (apply Hcompat; [done | left]).
    unfold mt_schema in Hs. injection Hs as Hrk Hrv Hck Hcv He.
    unfold g, sig_of, localize_entries, col_dtype; cbn. by rewrite Hrk, Hck, Hcv, He. }
  assert (length ts = length mts) as Hlen by (unfold ts; by rewrite length_fmap).
  assert (2 <= length mts)%nat as Hlen2 by (destruct rest; [done | simpl; lia]).
  destruct (stages_fresh_resumable temp_dir chunk_size min_partitions g Hcs
              fuel ts (mt_row_value h) 0%nat σ)
    as (t & σ1 & Hrun & _ & Hres); [done|done|lia|].
  exists (reference_union h mts), σ1.
  pose proof (multi_way_union_mts_unfold false fuel (Some <$> mts) temp_dir
                chunk_size min_partitions "" (Localized <$> ts) [Localized t]
                σ σ1 (initial_staging_fresh mts) Hrun) as Hu.
  assert ((finish (Some <$> mts) [Localized t], σ1)
          = (Ret (reference_union h mts), σ')) as Heq
    by exact (eq_trans (eq_sym Hu) Hfresh).
  assert (finish (Some <$> mts) [Localized t] = Ret (reference_union h mts))
    as Hfinish by exact (f_equal fst Heq).
  split.
  - rewrite Hu. by rewrite Hfinish.
  - rewrite (multi_way_union_mts_unfold true fuel (Some h :: others) temp_dir
               chunk_size min_partitions ""
               (Unlocalized <$> (Some h :: others)) [Localized t] σ1 σ1
               eq_refl).
    + by rewrite <- Hfinish.
    + apply Hres; [lia|]. rewrite length_fmap. simpl in *. lia.
Qed.

Lemma resume_after_fresh_run_witness :
  ∃ res σ1,
    multi_way_union_mts 3 (Some <$> [part_A; part_B; part_C]) "tmp" 2 1 false
      "" empty_dir
    = (Ret res, σ1)
    ∧ multi_way_union_mts 3 [Some part_A; None; None] "tmp" 2 1 true "" σ1
      = (Ret res, σ1).
Proof.
  destruct three_partitions_ok as [Hc Ha].
  exact (resume_after_fresh_run 3 part_A [part_B; part_C] [None; None] "tmp" 2 1
           empty_dir ltac:(lia) Hc Ha ltac:(done) ltac:(simpl; lia) eq_refl).
Defined.

(** ** More on the passes over the variant MatrixTable *)

(** Two entry annotations in a row are one, when the second looks at
    the row's key only. *)
Lemma annotate_entries_fuse_key f
    (G : variant_row → sample → vcf_entry → vcf_entry) mt :
  (∀ r r' c e, locus r' = locus r → G r' c e = G r c e) →
  annotate_entries G (annotate_entries f mt)
  = annotate_entries (λ r c e, G r c (f r c e)) mt.
Proof.
  intros HG. unfold annotate_entries; simpl. f_equal.
  rewrite <- list_fmap_compose. apply list_fmap_ext. intros _ r _; simpl.
  f_equal. rewrite zip_with_fuse. apply zip_with_ext; [|done..].
  intros c [e|]; simpl; [|done]. f_equal. by apply HG.
Qed.

Lemma clean_FT_idemp (R ft : gset string) :
  clean_FT R (clean_FT R ft) = clean_FT R ft.
Proof.
  unfold clean_FT at 2 3. destruct (decide (ft ∖ R = ∅)) as [He|Hne].
  - unfold clean_FT. destruct (decide (PASS ∖ R = ∅)) as [_|Hp]; [done|].
    unfold PASS in *. apply set_eq. intros x.
    rewrite elem_of_difference, elem_of_singleton. split; [by intros [-> _]|].
    intros ->. split; [done|]. intros HR. apply Hp.
    apply set_eq. intros y. rewrite elem_of_difference, elem_of_singleton.
    split; [by intros [-> ?] | by intros ?%not_elem_of_empty].
  - unfold clean_FT.
    assert (ft ∖ R ∖ R = ft ∖ R) as ->.
    { apply set_eq. intros x. rewrite !elem_of_difference. tauto. }
    by rewrite decide_False.
Qed.

(** X12: [remove_genotype_filters] is idempotent, for any set of
    filters to remove: running it a second time changes nothing. *)
Theorem remove_genotype_filters_idempotent (mt : VariantMT)
    (filters_to_remove : gset string) :
  remove_genotype_filters (remove_genotype_filters mt filters_to_remove)
    filters_to_remove
  = remove_genotype_filters mt filters_to_remove.
Proof.
  rewrite !remove_genotype_filters_fused.
  rewrite (annotate_entries_fuse _ (λ _ e, with_FT e _)).
  apply annotate_entries_ext. intros r c e. unfold with_FT; simpl.
  f_equal. destruct (FT e) as [ft|]; simpl; [|done].
  by rewrite clean_FT_idemp.
Qed.

Lemma hom_ref_entry_idemp m depth e :
  hom_ref_entry m depth (hom_ref_entry m depth e) = hom_ref_entry m depth e.
Proof.
  destruct e as [dp [hl|] mq tlod ft x]; unfold hom_ref_entry; simpl.
  - by destruct dp.
  - destruct depth as [d|]; simpl; [|done].
    destruct (Z.ltb_spec m d), (Z.leb_spec d m); simpl; try lia; try done.
    destruct (Z.ltb_spec m d), (Z.leb_spec d m); simpl; try lia; done.
Qed.

(** X13: [determine_hom_refs] is idempotent: with the same coverage
    table and the same minimum, a second run changes nothing. *)
Theorem determine_hom_refs_idempotent (mt : VariantMT) (coverages : CoverageMT)
    (minimum_homref_coverage : Z) :
  determine_hom_refs
    (determine_hom_refs mt coverages minimum_homref_coverage)
    coverages minimum_homref_coverage
  = determine_hom_refs mt coverages minimum_homref_coverage.
Proof.
  rewrite !determine_hom_refs_fused.
  rewrite annotate_entries_fuse_key by (by intros r r' c e ->).
  apply annotate_entries_ext. intros r c e. apply hom_ref_entry_idemp.
Qed.

(** X14: [determine_hom_refs] changes entries only, as its docstring
    says: columns, row keys and row filters are as before, a missing
    entry stays missing and a present one stays present; and after it
    no entry has a missing [HL] together with a present [DP]. *)
Theorem determine_hom_refs_shape (mt : VariantMT) (coverages : CoverageMT)
    (minimum_homref_coverage : Z) :
  Forall (λ r, length (row_entries r) = length (vm_cols mt)) (vm_rows mt) →
  let mt' := determine_hom_refs mt coverages minimum_homref_coverage in
  vm_cols mt' = vm_cols mt
  ∧ Forall2
      (λ r r',
         locus r' = locus r ∧ ref_allele r' = ref_allele r
         ∧ alt_alleles r' = alt_alleles r ∧ filters r' = filters r
         ∧ Forall2
             (λ oe oe',
                (oe = None ↔ oe' = None)
                ∧ ∀ e', oe' = Some e' → HL e' = None → DP e' = None)
             (row_entries r) (row_entries r'))
      (vm_rows mt) (vm_rows mt').
Proof.
  intros Hwf mt'. split; [done|].
  subst mt'. rewrite determine_hom_refs_fused.
  eapply Forall2_impl; [apply annotate_entries_rows, Hwf|].
  intros r r' (-> & -> & -> & -> & Hes). repeat split; try done.
  eapply Forall2_impl; [exact Hes|].
  intros oe oe' (c & _ & ->). split.
  - by destruct oe.
  - intros e' He'. destruct oe as [e|]; [|done]. injection He' as <-.
    destruct e as [dp [hl|] mq tlod ft x]; unfold hom_ref_entry; simpl; [done|].
    destruct (coverages !! (locus r, s c)) as [d|]; simpl; [|done].
    destruct (Z.ltb_spec minimum_homref_coverage d),
             (Z.leb_spec d minimum_homref_coverage); simpl; try lia; done.
Qed.

Lemma determine_hom_refs_shape_witness :
  Forall (λ r, length (row_entries r) = length (vm_cols three_entries))
         (vm_rows three_entries)
  ∧ vm_cols (determine_hom_refs three_entries low_and_high_coverage 100)
    = vm_cols three_entries.
Proof.
  assert (Forall (λ r, length (row_entries r) = length (vm_cols three_entries))
                 (vm_rows three_entries)) as Hwf by (repeat constructor).
  split; [exact Hwf|].
  exact (proj1 (determine_hom_refs_shape three_entries low_and_high_coverage
                  100 Hwf)).
Defined.

Lemma artifact_filter_rows (mt : VariantMT) (bed : list bed_row) :
  vm_rows (apply_mito_artifact_filter mt bed)
  = (λ r, with_filters r (Some (row_filter bed r))) <$> vm_rows mt.
Proof.
  unfold apply_mito_artifact_filter, annotate_rows_filters.
  cbv zeta. cbn [vm_rows]. apply list_fmap_ext. intros i r Hr.
  unfold with_filters. f_equal.
  apply list_elem_of_lookup_2 in Hr.
  rewrite !overlaps_spec, (span_spec mt bed r Hr).
  unfold region; cbn [i_start i_end]. fold (span_end r).
  unfold row_filter, artifact_prone_site.
  destruct (decide (Exists (λ b, hits r (interval b)) bed)) as [Hh|Hh].
  - apply Exists_exists in Hh as (b & Hb & [H1|[H2|H3]]).
    + rewrite (bool_decide_eq_true_2 (Exists _ bed))
        by (apply Exists_exists; eauto).
      done.
    + rewrite (bool_decide_eq_true_2
                 (Exists (λ b, i_start (interval b) <= span_end r
                               <= i_end (interval b)) bed))
        by (apply Exists_exists; eauto).
      by destruct (bool_decide _).
    + rewrite (bool_decide_eq_true_2
                 (Exists (λ b, locus r <= i_start (interval b) <= span_end r)
                    bed))
        by (apply Exists_exists; eauto).
      by do 2 destruct (bool_decide _).
  - rewrite !bool_decide_eq_false_2; [done|..];
      intros (b & Hb & Hx)%Exists_exists; apply Hh, Exists_exists;
      exists b; (split; [done|]); unfold hits; tauto.
Qed.

(** X15: what [apply_mito_artifact_filter] does, with no assumption on
    the intervals: each row keeps its key and entries and gets the
    filter [artifact_prone_site] if for some interval of the BED table
    the row's start or end lies in the interval or the interval's start
    lies in the row's span, and [PASS] otherwise.  So the filter of a
    row depends on the row's locus and reference allele and on the
    intervals only: not on the other rows, not on the labels in the BED
    table, and not on the filters the row had before, which are
    replaced. *)
Theorem apply_mito_artifact_filter_rows (mt : VariantMT) (bed : list bed_row) :
  apply_mito_artifact_filter mt bed
  = {| vm_cols := vm_cols mt;
       vm_rows :=
         (λ r, with_filters r
                 (Some (if decide (Exists (λ b, hits r (interval b)) bed)
                        then {[ "artifact_prone_site" ]} else {[ "PASS" ]})))
         <$> vm_rows mt |}.
Proof.
  pose proof (artifact_filter_rows mt bed) as Hrows.
  destruct (apply_mito_artifact_filter mt bed) as [cols rows] eqn:Heq.
  assert (cols = vm_cols mt) as -> by (by injection Heq).
  cbn [vm_rows] in Hrows. by rewrite Hrows.
Qed.

(** X16: [apply_mito_artifact_filter] is idempotent, and with an empty
    BED table every row gets [PASS]. *)
Theorem apply_mito_artifact_filter_idempotent (mt : VariantMT)
    (bed : list bed_row) :
  apply_mito_artifact_filter (apply_mito_artifact_filter mt bed) bed
  = apply_mito_artifact_filter mt bed
  ∧ vm_rows (apply_mito_artifact_filter mt [])
    = (λ r, with_filters r (Some PASS)) <$> vm_rows mt.
Proof.
  split.
  - pose proof (artifact_filter_rows (apply_mito_artifact_filter mt bed) bed)
      as H2.
    pose proof (artifact_filter_rows mt bed) as H1.
    destruct (apply_mito_artifact_filter (apply_mito_artifact_filter mt bed) bed)
      as [cols2 rows2] eqn:Heq2.
    destruct (apply_mito_artifact_filter mt bed) as [cols1 rows1] eqn:Heq1.
    assert (cols2 = cols1) as -> by (by injection Heq2).
    cbn [vm_rows] in *. f_equal. rewrite H2, H1.
    rewrite <- list_fmap_compose. by apply list_fmap_ext.
  - rewrite artifact_filter_rows. apply list_fmap_ext. intros _ r _.
    unfold row_filter. rewrite decide_False; [done|]. by intros ?%Exists_nil.
Qed.

(** X17: the artifact filter and the two entry passes of lines 293-297
    work on different parts of the MatrixTable and can be run in either
    order. *)
Theorem artifact_filter_commutes_with_entry_passes (mt : VariantMT)
    (coverages : CoverageMT) (minimum_homref_coverage : Z)
    (bed : list bed_row) :
  apply_mito_artifact_filter
    (entry_passes mt coverages minimum_homref_coverage) bed
  = entry_passes (apply_mito_artifact_filter mt bed) coverages
      minimum_homref_coverage.
Proof.
  assert (∀ f mt0,
            (∀ r r' c e, locus r' = locus r → f r' c e = f r c e) →
            apply_mito_artifact_filter (annotate_entries f mt0) bed
            = annotate_entries f (apply_mito_artifact_filter mt0 bed)) as Hcomm.
  { intros f mt0 Hf.
    pose proof (artifact_filter_rows (annotate_entries f mt0) bed) as H1.
    pose proof (artifact_filter_rows mt0 bed) as H2.
    destruct (apply_mito_artifact_filter (annotate_entries f mt0) bed)
      as [cols1 rows1] eqn:Heq1.
    destruct (apply_mito_artifact_filter mt0 bed) as [cols2 rows2] eqn:Heq2.
    assert (cols1 = vm_cols mt0) as -> by (by injection Heq1).
    assert (cols2 = vm_cols mt0) as -> by (by injection Heq2).
    cbn [vm_rows] in *. subst rows1 rows2.
    unfold annotate_entries; cbn [vm_rows vm_cols]. f_equal.
    rewrite <- !list_fmap_compose. apply list_fmap_ext. intros _ r _.
    unfold with_filters; cbn. f_equal.
    apply zip_with_ext; [|done..]. intros c [e|]; [|done]. cbn. f_equal.
    symmetry. by apply Hf. }
  unfold entry_passes. cbv zeta.
  rewrite !determine_hom_refs_fused, !remove_genotype_filters_fused.
  rewrite Hcomm by (by intros r r' c e ->).
  by rewrite Hcomm.
Qed.

Lemma PASS_ok : PASS ≠ ∅ ∧ PASS ## default_filters_to_remove.
Proof.
  split.
  - intros He. assert ("PASS" ∈ (∅ : gset string)) as Hin
      by (rewrite <- He; by apply elem_of_singleton).
    by apply not_elem_of_empty in Hin.
  - unfold PASS, default_filters_to_remove.
    apply disjoint_singleton_l. rewrite !elem_of_union, !elem_of_singleton.
    intros [[[?|?]|?]|?]; discriminate.
Qed.

(** X18: after the two entry passes of lines 293-297 no entry has an
    empty [FT], and no [FT] holds one of the four removed filters. *)
Theorem entry_passes_FT (mt : VariantMT) (coverages : CoverageMT)
    (minimum_homref_coverage : Z) :
  Forall (λ r, length (row_entries r) = length (vm_cols mt)) (vm_rows mt) →
  Forall
    (λ r', Forall (λ oe', ∀ e' ft, oe' = Some e' → FT e' = Some ft →
                          ft ≠ ∅ ∧ ft ## default_filters_to_remove)
                  (row_entries r'))
    (vm_rows (entry_passes mt coverages minimum_homref_coverage)).
Proof.
  intros Hwf. unfold entry_passes. cbv zeta.
  rewrite determine_hom_refs_fused, remove_genotype_filters_fused.
  rewrite annotate_entries_fuse_key by (by intros r r' c e ->).
  eapply Forall2_Forall_r; [apply annotate_entries_rows, Hwf|].
  apply Forall_forall. intros r _ r' (_ & _ & _ & _ & Hes).
  eapply Forall2_Forall_r; [exact Hes|].
  apply Forall_forall. intros oe _ oe' (c & _ & ->) e' ft He' Hft.
  destruct oe as [e|]; [|done]. injection He' as <-.
  destruct e as [dp [hl|] mq tlod [ft0|] x]; unfold hom_ref_entry in Hft;
    simpl in Hft.
  - injection Hft as <-. split; [apply clean_FT_nonempty|apply clean_FT_default_disjoint].
  - done.
  - destruct (coverages !! (locus r, s c)) as [d|]; simpl in Hft; [|done].
    destruct (minimum_homref_coverage <? d); simpl in Hft; injection Hft as <-.
    + apply PASS_ok.
    + split; [apply clean_FT_nonempty|apply clean_FT_default_disjoint].
  - destruct (coverages !! (locus r, s c)) as [d|]; simpl in Hft; [|done].
    destruct (minimum_homref_coverage <? d); simpl in Hft; [|done].
    injection Hft as <-. apply PASS_ok.
Qed.

Lemma entry_passes_FT_witness :
  Forall
    (λ r', Forall (λ oe', ∀ e' ft, oe' = Some e' → FT e' = Some ft →
                          ft ≠ ∅ ∧ ft ## default_filters_to_remove)
                  (row_entries r'))
    (vm_rows (entry_passes three_entries low_and_high_coverage 100)).
Proof.
  apply (entry_passes_FT three_entries low_and_high_coverage 100).
  repeat constructor.
Defined.

(** ** More on [join_two_mts] *)

Lemma join_two_mts_unfold (fuel : nat) (mt1 mt2 : MatrixTable)
    (row_keep col_keep : list string) (temp_dir : string) (partitions : Z)
    (σ : fs) (m1 m2 : MatrixTable) :
  selected mt1 row_keep col_keep = Ret m1 →
  selected mt2 row_keep col_keep = Ret m2 →
  row_dtype m1 = row_dtype m2 → col_dtype m1 = col_dtype m2 →
  entry_dtype m1 = entry_dtype m2 →
  join_two_mts fuel mt1 mt2 row_keep col_keep temp_dir partitions σ
  = multi_way_union_mts fuel [Some m1; Some m2] temp_dir 2 partitions false
      "appending_" σ.
Proof.
  intros H1 H2 Hr Hc He. unfold join_two_mts.
  fold (selected mt1 row_keep col_keep). fold (selected mt2 row_keep col_keep).
  rewrite H1, H2.
  unfold mbind at 1, M_bind at 1, lift at 1.
  unfold mbind at 1, M_bind at 1, lift at 1.
  by rewrite !bool_decide_eq_false_2 by (intros Hne; by apply Hne).
Qed.

Lemma index_of_lt name ty i : index_of name ty = Some i → (i < length ty)%nat.
Proof.
  revert i. induction ty as [|[n t] ty IH]; intros i; [done|].
  cbn [index_of length]. destruct (decide (n = name)).
  - intros [= <-]. lia.
  - destruct (index_of name ty) as [j|]; [|done].
    intros [= <-]. specialize (IH j eq_refl). lia.
Qed.

Lemma select_one_lt key value name i :
  select_one key value name = Ret i → (i < length value)%nat.
Proof.
  unfold select_one. destruct (index_of name value) as [j|] eqn:Hj.
  - intros [= <-]. by eapply index_of_lt.
  - by destruct (decide _).
Qed.

Lemma length_pick_selected key value names idxs :
  select_exprs key value names = Ret idxs →
  length (pick value idxs) = length names.
Proof.
  unfold select_exprs.
  destruct (mapM (select_one key value) names) as [is_| |] eqn:Hm;
    cbn [mbind outcome_bind]; [|done..].
  destruct (decide (NoDup names)); [|done]. intros [= <-].
  clear n. revert is_ Hm. induction names as [|x names IH]; intros is_.
  - intros [= <-]. done.
  - rewrite mapM_cons.
    destruct (select_one key value x) as [i| |] eqn:Hi;
      cbn [mbind outcome_bind]; [|done..].
    destruct (mapM (select_one key value) names) as [js| |];
      cbn [mbind outcome_bind]; [|done..].
    intros [= <-]. apply select_one_lt in Hi.
    apply lookup_lt_is_Some_2 in Hi as [v Hv].
    unfold pick in *. cbn [omap list_omap]. rewrite Hv.
    cbn [length]. f_equal. by apply IH.
Qed.

(** Datasets that passed the two selections and the schema check of
    line 226 have the same keys as well: the kept value fields are as
    many as the names kept. *)
Lemma schema_check_compatible mt1 mt2 row_keep col_keep m1 m2 :
  selected mt1 row_keep col_keep = Ret m1 →
  selected mt2 row_keep col_keep = Ret m2 →
  row_dtype m1 = row_dtype m2 → col_dtype m1 = col_dtype m2 →
  entry_dtype m1 = entry_dtype m2 →
  mt_schema m1 = mt_schema m2.
Proof.
  intros H1 H2 Hr Hc He.
  destruct (selected_keeps _ _ _ _ H1)
    as (_ & _ & _ & _ & (ri1 & Hri1 & Hrv1) & (ci1 & Hci1 & Hcv1)).
  destruct (selected_keeps _ _ _ _ H2)
    as (_ & _ & _ & _ & (ri2 & Hri2 & Hrv2) & (ci2 & Hci2 & Hcv2)).
  apply length_pick_selected in Hri1, Hri2, Hci1, Hci2.
  unfold row_dtype, col_dtype, entry_dtype in *.
  apply app_inj_2 in Hr as [Hrk Hrv]; [|congruence].
  apply app_inj_2 in Hc as [Hck Hcv]; [|congruence].
  unfold mt_schema. by rewrite Hrk, Hrv, Hck, Hcv, He.
Qed.

(** X19: appending.  When the two selections succeed, the three
    compared schemas are equal and each dataset has one entry per
    column in every row, [join_two_mts] returns the union: the columns
    of the first dataset come first, followed by those of the second;
    there is a row for exactly the keys of either dataset, and every
    row has one entry per column of the result. *)
Theorem join_two_mts_appends (fuel : nat) (mt1 mt2 : MatrixTable)
    (row_keep col_keep : list string) (temp_dir : string) (partitions : Z)
    (σ : fs) (m1 m2 : MatrixTable) :
  selected mt1 row_keep col_keep = Ret m1 →
  selected mt2 row_keep col_keep = Ret m2 →
  row_dtype m1 = row_dtype m2 → col_dtype m1 = col_dtype m2 →
  entry_dtype m1 = entry_dtype m2 →
  mt_aligned m1 → mt_aligned m2 → (2 <= fuel)%nat →
  ∃ res σ',
    join_two_mts fuel mt1 mt2 row_keep col_keep temp_dir partitions σ
    = (Ret res, σ')
    ∧ mt_cols res = mt_cols m1 ++ mt_cols m2
    ∧ (∀ k, is_Some (mt_rows res !! k)
            ↔ is_Some (mt_rows mt1 !! k) ∨ is_Some (mt_rows mt2 !! k))
    ∧ (∀ k row, mt_rows res !! k = Some row →
                length row = length (mt_cols m1 ++ mt_cols m2)).
Proof.
  intros H1 H2 Hr Hc He Ha1 Ha2 Hfuel.
  rewrite (join_two_mts_unfold fuel mt1 mt2 row_keep col_keep temp_dir
             partitions σ m1 m2) by done.
  pose proof (schema_check_compatible _ _ _ _ _ _ H1 H2 Hr Hc He) as Hs.
  destruct (multi_way_union_mts_fresh temp_dir 2 partitions "appending_"
              ltac:(lia) fuel m1 [m2] σ) as [σ' Hrun].
  { intros x y Hx Hy.
    apply elem_of_cons in Hx as [->|Hx]; apply elem_of_cons in Hy as [->|Hy];
      try apply list_elem_of_singleton in Hx as ->;
      try apply list_elem_of_singleton in Hy as ->; done. }
  { by repeat constructor. }
  { simpl. lia. }
  exists (reference_union m1 [m1; m2]), σ'. split; [exact Hrun|].
  destruct (selected_keeps _ _ _ _ H1) as (_ & _ & _ & Hrows1 & _).
  destruct (selected_keeps _ _ _ _ H2) as (_ & _ & _ & Hrows2 & _).
  split; [|split].
  - cbn. by rewrite app_nil_r.
  - intros k. rewrite (reference_union_lookup m1 [m2] k).
    rewrite <- Hrows1, <- Hrows2.
    destruct (decide (Exists _ _)) as [Hex|Hex].
    + split; [intros _|by eexists].
      apply Exists_cons in Hex as [?|Hex]; [by left|].
      apply Exists_cons in Hex as [?|Hex]; [by right|].
      by apply Exists_nil in Hex.
    + split; [by intros [??]|]. intros Hk. exfalso. apply Hex.
      destruct Hk; [by left | right; by left].
  - intros k row Hrow.
    assert (aligned (union_table (sig_of (localize_entries m1))
                       (localize_entries <$> [m1; m2]))) as Hal.
    { apply union_table_aligned. by repeat constructor. }
    unfold reference_union, reference_rows in Hrow. cbn [mt_rows] in Hrow.
    rewrite lookup_fmap in Hrow.
    destruct (union_rows _ _ !! k) as [es|] eqn:Hes; [|done].
    injection Hrow as <-. rewrite length_fmap.
    specialize (Hal k es). cbn in Hal. rewrite app_nil_r in Hal.
    by apply Hal.
Qed.

Lemma join_two_mts_appends_witness :
  ∃ res σ',
    join_two_mts 2 part_A part_B [] [] "tmp" 1 empty_dir = (Ret res, σ')
    ∧ mt_cols res = mt_cols part_A ++ mt_cols part_B.
Proof.
  destruct (join_two_mts_appends 2 part_A part_B [] [] "tmp" 1 empty_dir
              part_A part_B eq_refl eq_refl eq_refl eq_refl eq_refl
              (single_column_aligned "A" 5)
              (single_column_aligned "B" 7) ltac:(lia))
    as (res & σ' & Hrun & Hcols & _).
  exists res, σ'. split; [exact Hrun | exact Hcols].
Defined.

(** ** The checkpoint paths of the subsets *)

Lemma path_join_prefixed (temp_dir prefix : string) (c : ascii) :
  c ≠ "/"%char →
  ∃ P, ∀ name, path_join temp_dir (prefix +:+ String c name)
               = P +:+ String c name.
Proof.
  intros Hc. destruct prefix as [|d prefix].
  - exists (if decide (temp_dir = "") then ""
            else if ends_with_slash temp_dir then temp_dir
                 else temp_dir +:+ "/").
    intros name. change ("" +:+ ?x) with x.
    rewrite path_join_relative by done.
    destruct (decide (temp_dir = "")); [done|].
    destruct (ends_with_slash temp_dir); [done|].
    by rewrite string_app_assoc.
  - destruct (decide (d = "/"%char)) as [->|Hd].
    + exists (String "/" prefix). intros name. by rewrite string_app_cons.
    + exists ((if decide (temp_dir = "") then ""
               else if ends_with_slash temp_dir then temp_dir
                    else temp_dir +:+ "/") +:+ String d prefix).
      intros name. rewrite string_app_cons, path_join_relative by done.
      destruct (decide (temp_dir = "")); [done|].
      destruct (ends_with_slash temp_dir);
        by rewrite <- ?string_app_cons, ?string_app_assoc.
Qed.

(** X20: the checkpoints of the subsets are kept apart.  In one
    directory and for one number of subsets, the checkpoint path of a
    job of a subset determines the subset, the stage and the job; it is
    never a checkpoint path of the final merge of the subsets, and
    neither of the two is the path of the merged table of a subset. *)
Theorem subset_checkpoints_disjoint (temp_dir what : string)
    (num_merges : Z) (n m stage i stage' i' : nat) :
  (job_path temp_dir (this_prefix what n num_merges) stage i
   = job_path temp_dir (this_prefix what m num_merges) stage' i' →
   n = m ∧ stage = stage' ∧ i = i')
  ∧ job_path temp_dir (this_prefix what n num_merges) stage i
    ≠ job_path temp_dir (merged_prefix what num_merges) stage' i'
  ∧ job_path temp_dir (this_prefix what n num_merges) stage i
    ≠ final_merged_mt temp_dir (this_prefix what m num_merges)
  ∧ job_path temp_dir (merged_prefix what num_merges) stage i
    ≠ final_merged_mt temp_dir (this_prefix what m num_merges).
Proof.
  destruct (path_join_prefixed temp_dir what "_" ltac:(done)) as [P HP].
  unfold job_path, final_merged_mt, this_prefix, merged_prefix.
  rewrite !string_app_assoc.
  change ("_merging_subset" +:+ ?x)
    with (String "_" ("merging_" +:+ String "s" ("ubset" +:+ x))).
  change ("_merging_final_" +:+ ?x)
    with (String "_" ("merging_" +:+ String "f" ("inal_" +:+ x))).
  rewrite !HP.
  assert (∀ (a b : nat) (x y : string),
            P +:+ String "_" ("merging_" +:+ String "s" ("ubset" +:+ str a
              +:+ "_" +:+ pretty num_merges +:+ "subsets/" +:+ x))
            = P +:+ String "_" ("merging_" +:+ String "s" ("ubset" +:+ str b
              +:+ "_" +:+ pretty num_merges +:+ "subsets/" +:+ y)) →
            a = b ∧ x = y) as Hsub.
  { intros a b x y H. apply (inj (String.app P)) in H.
    injection H as H. change ("" +:+ ?z) with z in H.
    change ("_" +:+ ?z) with (String "_" z) in H.
    apply digits_then_char in H as (Hn & _ & H);
      [|apply str_digits..|done|done].
    apply (inj (String.app (pretty num_merges))) in H.
    apply (inj (String.app "subsets/")) in H.
    unfold str in Hn. by apply (inj pretty) in Hn. }
  assert (∀ x y : string,
            P +:+ String "_" ("merging_" +:+ String "s" x)
            ≠ P +:+ String "_" ("merging_" +:+ String "f" y)) as Hfin.
  { intros x y H. apply (inj (String.app P)) in H. discriminate H. }
  split; [|split; [|split]].
  - intros H. apply Hsub in H as [Hn H].
    apply job_names_differ in H as [? ?]. done.
  - apply Hfin.
  - intros H. apply Hsub in H as [_ H]. discriminate H.
  - intros H. symmetry in H. by apply Hfin in H.
Qed.

(** ** A kept field that a dataset has not *)

Lemma index_of_None name ty : name ∉ ty.*1 → index_of name ty = None.
Proof.
  induction ty as [|[n t] ty IH]; [done|].
  rewrite fmap_cons, not_elem_of_cons. cbn [fst index_of]. intros [Hn Hty].
  destruct (decide (n = name)); [congruence|]. by rewrite IH.
Qed.

Lemma select_exprs_unknown key value pre name post :
  Forall (λ n, is_Some (index_of n value)) pre →
  name ∉ key.*1 → name ∉ value.*1 →
  select_exprs key value (pre ++ name :: post) = Raise (LookupError name).
Proof.
  intros Hpre Hk Hv. unfold select_exprs.
  assert (mapM (select_one key value) (pre ++ name :: post)
          = Raise (LookupError name)) as ->; [|done].
  induction Hpre as [|x pre [i Hi] _ IH].
  - rewrite app_nil_l, mapM_cons.
    assert (select_one key value name = Raise (LookupError name)) as ->; [|done].
    unfold select_one. rewrite (index_of_None name value Hv).
    by rewrite decide_False.
  - rewrite <- app_comm_cons, mapM_cons, IH.
    assert (select_one key value x = Ret i) as ->; [|done].
    unfold select_one. by rewrite Hi.
Qed.

(** X21: a kept column field that the first dataset has not.  When the
    row selection succeeds on the first dataset, the names of
    [col_keep] before [name] are column fields of it and [name] is no
    field of it at all, [join_two_mts] fails with a lookup error for
    [name]; nothing is compared, merged or written. *)
Theorem join_two_mts_unknown_field (fuel : nat) (mt1 mt2 m : MatrixTable)
    (row_keep pre post : list string) (name temp_dir : string)
    (partitions : Z) (σ : fs) :
  select_rows mt1 row_keep = Ret m →
  Forall (λ n, is_Some (index_of n (mt_col_value mt1))) pre →
  name ∉ field_names mt1 →
  join_two_mts fuel mt1 mt2 row_keep (pre ++ name :: post) temp_dir
    partitions σ
  = (Raise (LookupError name), σ).
Proof.
  intros Hrows Hpre Hname. unfold join_two_mts.
  assert (mt_col_key m = mt_col_key mt1 ∧ mt_col_value m = mt_col_value mt1)
    as [Hk Hv].
  { unfold select_rows in Hrows.
    destruct (select_exprs _ _ row_keep); cbn [mbind outcome_bind] in Hrows;
      [|done..].
    by injection Hrows as <-. }
  rewrite Hrows. cbn [mbind outcome_bind]. unfold select_cols.
  rewrite Hk, Hv, select_exprs_unknown; [done|done|..].
  - intros Hin. apply Hname. unfold field_names.
    rewrite !fmap_app, !elem_of_app. auto.
  - intros Hin. apply Hname. unfold field_names.
    rewrite !fmap_app, !elem_of_app. auto.
Qed.

Lemma join_two_mts_unknown_field_witness :
  join_two_mts 2 part_A part_B [] ([] ++ "batch" :: []) "tmp" 1 empty_dir
  = (Raise (LookupError "batch"), empty_dir).
Proof.
  apply (join_two_mts_unknown_field 2 part_A part_B part_A [] [] [] "batch"
           "tmp" 1 empty_dir).
  - reflexivity.
  - constructor.
  - vm_compute. intros Hin. by repeat apply elem_of_cons in Hin as [Hin|Hin];
      try apply elem_of_nil in Hin.
Defined.

(** ** [collect_vcf_paths] *)

Lemma foldl_insert_last {A} (f : A → string) (g : A → string)
    (l : list A) (d : gmap string string) (k : string) :
  foldl (λ (d : gmap string string) x, <[f x := g x]> d) d l !! k
  = match last (filter (λ x, f x = k) l) with
    | Some x => Some (g x)
    | None => d !! k
    end.
Proof.
  induction l as [|x l IH] using rev_ind; [done|].
  rewrite foldl_app, filter_app. cbn [foldl].
  destruct (decide (f x = k)) as [Hk|Hk].
  - rewrite filter_cons_True by done.
    rewrite filter_nil, last_snoc, <- Hk. by rewrite lookup_insert_eq.
  - rewrite filter_cons_False by done.
    rewrite filter_nil, app_nil_r, lookup_insert_ne by done. apply IH.
Qed.

(** X22: the dictionary of paths.  Under each name the dictionary holds
    the path of the last row filed under it, and it has no entry for a
    name that no row is filed under; a row is filed under its sample or
    batch name whatever its path is, the empty path included, provided
    it is among the participants of interest when these are given. *)
Theorem collect_vcf_paths_lookup (participant_ht : list participant)
    (participants_to_subset : option (list string)) (single_sample : bool)
    (k : string) :
  collect_vcf_paths participant_ht participants_to_subset single_sample !! k
  = p_vcf <$> last (filter (filed_under participants_to_subset single_sample k)
                           participant_ht).
Proof.
  unfold collect_vcf_paths.
  set (key := λ row, if single_sample then p_s row else p_batch row).
  assert (∀ l, foldl (λ (vcf_paths : gmap string string) row,
                        if single_sample then <[p_s row := p_vcf row]> vcf_paths
                        else <[p_batch row := p_vcf row]> vcf_paths) ∅ l
               = foldl (λ (d : gmap string string) x, <[key x := p_vcf x]> d) ∅ l)
    as ->.
  { intros l. generalize (∅ : gmap string string).
    induction l as [|x l IH]; intros d; [done|].
    cbn [foldl]. rewrite <- IH. unfold key. by destruct single_sample. }
  rewrite foldl_insert_last, lookup_empty.
  destruct participants_to_subset as [ps|].
  - rewrite list_filter_filter.
    assert (filter (λ x, key x = k ∧ entity_participant_id x ∈ ps) participant_ht
            = filter (filed_under (Some ps) single_sample k) participant_ht) as ->.
    { apply list_filter_iff. intros x. unfold filed_under, key. tauto. }
    by destruct (last _).
  - assert (filter (λ x, key x = k) participant_ht
            = filter (filed_under None single_sample k) participant_ht) as ->.
    { apply list_filter_iff. intros x. unfold filed_under, key. tauto. }
    by destruct (last _).
Qed.
